(** * Tensorforce optimizers: MultiStep and Evolutionary

    A shallow embedding of [tensorforce/core/optimizers/multi_step.py] and
    [tensorforce/core/optimizers/evolutionary.py], and the properties of
    their step operations.

    The embedding describes what the operations built by [tf_step] do when
    they are executed, in program order: every [tf.control_dependencies]
    block is sequenced after the operations it names. *)

From Stdlib Require Import ZArith QArith Qcanon List Lia.
From Stdlib Require PrimFloat.
From stdpp Require Import base option list strings gmap.

Set Default Proof Using "Type".
Local Open Scope Z_scope.

(** ** Scalars and tensors *)

(** The arithmetic of the numeric engine, as the optimizers use it. No law
    is assumed of it: what is proved for every [Scalar] holds of any
    deterministic arithmetic. *)
Class Scalar (R : Type) := {
  s_add : R → R → R;      (* x + y *)
  s_sub : R → R → R;      (* x - y *)
  s_mul : R → R → R;      (* x * y *)
  s_div : R → R → R;      (* x / y *)
  s_sign : R → R;         (* tf.sign(x) *)
  s_gt : R → R → bool;    (* x > y *)
  s_of_int : Z → R        (* a Python int used as a number *)
}.

(** A tensor is the flat list of its entries; its shape is their number. *)
Abbreviation Tensor R := (list R) (only parsing).

Section Tensors.
Context {R : Type} `{Scalar R}.

(** Modelled from the spec: [util.shape], the dimensions of a variable. *)
Definition shape (t : Tensor R) : nat := length t.

(* t1 + t2 *)
Definition tensor_add (t1 t2 : Tensor R) : Tensor R := zip_with s_add t1 t2.
(* t1 - t2 *)
Definition tensor_sub (t1 t2 : Tensor R) : Tensor R := zip_with s_sub t1 t2.
(* c * t, for a scalar tensor c *)
Definition tensor_scale (c : R) (t : Tensor R) : Tensor R := s_mul c <$> t.
(* t * c, for a Python float c *)
Definition tensor_times (t : Tensor R) (c : R) : Tensor R :=
  (λ x, s_mul x c) <$> t.
(* t / n, for a Python int n *)
Definition tensor_div_int (t : Tensor R) (n : Z) : Tensor R :=
  (λ x, s_div x (s_of_int n)) <$> t.


(** Modelled from the spec: [util.identity_operation], a pass-through
    identity that only carries the control dependency. *)
Definition identity_operation (t : Tensor R) : Tensor R := t.

(** The variables after [tf.assign_add(variable, delta)] over
    [zip(variables, deltas)]. *)
Fixpoint assign_add (variables deltas : list (Tensor R)) : list (Tensor R) :=
  match variables, deltas with
  | v :: vs, d :: ds => tensor_add v d :: assign_add vs ds
  | vs, _ => vs
  end.
End Tensors.

(** ** Results, and the monad of a step *)

Inductive exn :=
  | TypeError                 (* calling an object that is not callable *)
  | AssertionError            (* a failed [assert] *)
  | Failure (tag : string).   (* raised by a collaborator *)

Inductive Res (A : Type) :=
  | Ok (a : A)
  | Raise (e : exn).
Arguments Ok {A} a.
Arguments Raise {A} e.

(** A computation reads and writes a world [W], reports the operations it
    performs as events [E], in order, and returns or raises. *)
Definition M (W E A : Type) : Type := W → Res (A * W * list E).

Section Monad.
Context {W E : Type}.

Definition ret {A} (a : A) : M W E A := λ w, Ok (a, w, []).

Definition bind {A B} (m : M W E A) (f : A → M W E B) : M W E B :=
  λ w, match m w with
       | Raise e => Raise e
       | Ok (a, w1, t1) =>
           match f a w1 with
           | Raise e => Raise e
           | Ok (b, w2, t2) => Ok (b, w2, t1 ++ t2)
           end
       end.
End Monad.

Notation "'let*' x ':=' c1 'in' c2" := (bind c1 (λ x, c2))
  (at level 10, x pattern, c1 at level 100, c2 at level 200).

Section Loops.
Context {W E A : Type}.

(** [for _ in range(n): acc = body(acc)] *)
Fixpoint for_range (n : nat) (body : A → M W E A) (acc : A) : M W E A :=
  match n with
  | O => ret acc
  | S n' => let* acc' := body acc in for_range n' body acc'
  end.

(** [tf.while_loop(cond, body, loop_vars, maximum_iterations)]: the body
    runs while [cond] holds and fewer than [maximum_iterations]
    iterations were made. *)
Fixpoint while_loop_from (remaining : nat) (cond : A → bool)
    (body : A → M W E A) (loop_vars : A) : M W E A :=
  match remaining with
  | O => ret loop_vars
  | S k =>
      if cond loop_vars
      then let* vars' := body loop_vars in while_loop_from k cond body vars'
      else ret loop_vars
  end.

Definition while_loop (cond : A → bool) (body : A → M W E A) (loop_vars : A)
    (maximum_iterations : Z) : M W E A :=
  while_loop_from (Z.to_nat maximum_iterations) cond body loop_vars.

(** Modelled from the spec: [util.tf_always_true], the always-true
    continuation condition. *)
Definition tf_always_true (_ : A) : bool := true.
End Loops.

(** [range(n)] has [max n 0] elements. *)
Definition range (n : Z) : nat := Z.to_nat n.

(** ** Python values, as the constructors check them *)

Inductive PyVal (R : Type) :=
  | PyNone
  | PyBool (b : bool)
  | PyInt (z : Z)
  | PyFloat (x : R)
  | PyStr (s : string).
Arguments PyNone {R}.
Arguments PyBool {R} b.
Arguments PyInt {R} z.
Arguments PyFloat {R} x.
Arguments PyStr {R} s.

Definition and_then {A B} (r : Res A) (f : A → Res B) : Res B :=
  match r with
  | Ok a => f a
  | Raise e => Raise e
  end.

Notation "'let?' x ':=' c1 'in' c2" := (and_then c1 (λ x, c2))
  (at level 10, x pattern, c1 at level 100, c2 at level 200).

Section Python.
Context {R : Type} `{Scalar R}.

(** [isinstance(v, int)]: [bool] is a subclass of [int]. *)
Definition isinstance_int (v : PyVal R) : bool :=
  match v with PyInt _ | PyBool _ => true | _ => false end.

Definition isinstance_float (v : PyVal R) : bool :=
  match v with PyFloat _ => true | _ => false end.

Definition isinstance_bool (v : PyVal R) : bool :=
  match v with PyBool _ => true | _ => false end.

(** The number an instance of [int] stands for: [True] is 1, [False] is 0. *)
Definition int_value (v : PyVal R) : Z :=
  match v with PyInt z => z | PyBool b => Z.b2z b | _ => 0 end.

Definition float_value (v : PyVal R) : R :=
  match v with PyFloat x => x | _ => s_of_int 0 end.

Definition bool_value (v : PyVal R) : bool :=
  match v with PyBool b => b | _ => false end.

(** [assert c] *)
Definition assert (c : bool) : Res unit :=
  if c then Ok tt else Raise AssertionError.
End Python.

(** ** The multi-step meta optimizer *)

Module MultiStep.
Section MultiStep.
Context {R : Type} `{Scalar R}.
(** The values of the arguments dict, the time tensor, the keyword
    arguments passed on, and the inner optimizer's own state. *)
Context {Val Time Kwargs Inner : Type}.

(** What a step can read and write: the values of the variables, the
    caller's [arguments] dict (one shared object), the inner
    optimizer's state. *)
Record world := World {
  variables : list (Tensor R);
  arguments : gmap string Val;
  inner : Inner
}.

Inductive event :=
  | Reference (value : Val)                (* fn_reference( **arguments) returned *)
  | SetItem (key : string) (value : Val)   (* arguments[key] = value *)
  | Step (args : gmap string Val) (deltas : list (Tensor R)).
                                           (* self.optimizer.step(...) returned *)

(** [self.optimizer.step(time=time, variables=variables,
    arguments=arguments, **kwargs)]: the wrapped optimizer, which is
    handed the variables and the dict itself. *)
Variable optimizer_step : Time → Kwargs → world → Res (list (Tensor R) * world).

(** The instance: [self.num_steps], [self.unroll_loop]. *)
Record instance := Instance {
  num_steps : Z;
  unroll_loop : bool
}.

(** [fn_reference( **arguments)]: the callable receives a copy of the
    entries as keyword arguments; [None] is not callable. *)
Definition call_reference
    (fn_reference : option (gmap string Val → list (Tensor R) → Res Val))
    : M world event Val :=
  λ w, match fn_reference with
       | None => Raise TypeError
       | Some f =>
           match f (arguments w) (variables w) with
           | Ok r => Ok (r, w, [Reference r])
           | Raise e => Raise e
           end
       end.

(** [arguments[key] = value] *)
Definition setitem (key : string) (value : Val) : M world event unit :=
  λ w, Ok (tt, World (variables w) (<[key := value]> (arguments w)) (inner w),
           [SetItem key value]).

Definition step (time : Time) (kwargs : Kwargs) : M world event (list (Tensor R)) :=
  λ w, match optimizer_step time kwargs w with
       | Ok (deltas, w') => Ok (deltas, w', [Step (arguments w) deltas])
       | Raise e => Raise e
       end.

(** [def body(deltas)] of the while loop. *)
Definition body (time : Time) (kwargs : Kwargs) (deltas : list (Tensor R))
    : M world event (list (Tensor R)) :=
  let* step_deltas := step time kwargs in
  let deltas := zip_with tensor_add deltas step_deltas in
  ret deltas.

Definition tf_step (self : instance) (time : Time) (kwargs : Kwargs)
    (fn_reference : option (gmap string Val → list (Tensor R) → Res Val))
    : M world event (list (Tensor R)) :=
  (* Set reference to compare with at each optimization step *)
  let* reference := call_reference fn_reference in
  let* _ := setitem "reference" reference in
  (* First step *)
  let* deltas := step time kwargs in
  if unroll_loop self then
    (* Unrolled for loop *)
    for_range (range (num_steps self - 1))
      (λ deltas,
         let* step_deltas := step time kwargs in
         ret (zip_with tensor_add deltas step_deltas))
      deltas
  else
    (* TensorFlow while loop *)
    while_loop tf_always_true (body time kwargs) deltas (num_steps self - 1).

(** The sum property, in the spec's words: [k] invocations of the inner
    step, one after the other, and the elementwise sum of what they
    returned. *)
Fixpoint invoke_steps (k : nat) (time : Time) (kwargs : Kwargs)
    : M world event (list (list (Tensor R))) :=
  match k with
  | O => ret []
  | S k' =>
      let* d := step time kwargs in
      let* ds := invoke_steps k' time kwargs in
      ret (d :: ds)
  end.

Definition elementwise_sum (ds : list (list (Tensor R))) : list (Tensor R) :=
  match ds with
  | [] => []
  | d :: rest => foldl (zip_with tensor_add) d rest
  end.


(** What the events of a step say. *)
Definition is_step (e : event) : Prop :=
  match e with Step _ _ => True | _ => False end.

Definition references (tr : list event) : list Val :=
  omap (λ e, match e with Reference r => Some r | _ => None end) tr.

Definition assignments (tr : list event) : list (string * Val) :=
  omap (λ e, match e with SetItem k v => Some (k, v) | _ => None end) tr.

Definition step_arguments (tr : list event) : list (gmap string Val) :=
  omap (λ e, match e with Step a _ => Some a | _ => None end) tr.

Definition step_deltas (tr : list event) : list (list (Tensor R)) :=
  omap (λ e, match e with Step _ d => Some d | _ => None end) tr.

(** The inner optimizer leaves the dict it is handed as it is. *)
Definition keeps_arguments (time : Time) (kwargs : Kwargs) : Prop :=
  ∀ w deltas w', optimizer_step time kwargs w = Ok (deltas, w') →
                 arguments w' = arguments w.

(** [super().__init__(name=name, optimizer=optimizer)], of the base class
    [MetaOptimizer]. *)
Variable MetaOptimizer_init : PyVal R → PyVal R → Res unit.

(** [MultiStep.__init__(self, name, optimizer, num_steps=10,
    unroll_loop=False)] *)
Definition __init__ (name optimizer num_steps unroll_loop : PyVal R) : Res instance :=
  let? _ := MetaOptimizer_init name optimizer in
  let? _ := assert (isinstance_int num_steps && (0 <? int_value num_steps)) in
  let? _ := assert (isinstance_bool unroll_loop) in
  Ok (Instance (int_value num_steps) (bool_value unroll_loop)).

Definition default_num_steps : PyVal R := PyInt 10.
Definition default_unroll_loop : PyVal R := PyBool false.

(** The inner optimizer has applied the deltas it returns: one per
    variable, of its shape, added to it. *)
Definition applies_its_deltas (time : Time) (kwargs : Kwargs) : Prop :=
  ∀ w deltas w', optimizer_step time kwargs w = Ok (deltas, w') →
                 variables w' = assign_add (variables w) deltas
                 ∧ shape <$> deltas = shape <$> variables w.

(** A valid configuration: [num_steps] an int above 0, [unroll_loop] a
    bool. As everywhere in Python, a bool is an int: [True] is the int 1
    (and [False] the int 0, which is below 1). *)
Definition valid (num_steps unroll_loop : PyVal R) : Prop :=
  ((∃ n, num_steps = PyInt n ∧ 0 < n) ∨ num_steps = PyBool true)
  ∧ (∃ b, unroll_loop = PyBool b).
End MultiStep.
End MultiStep.

(** ** The evolutionary optimizer *)

Module Evolutionary.
Section Evolutionary.
Context {R : Type} `{Scalar R}.
(** The values of the arguments dict, and the state of the random
    generator (the seed and what was drawn so far). *)
Context {Val G : Type}.

Record world := World {
  variables : list (Tensor R);
  arguments : gmap string Val;
  generator : G
}.

Inductive event :=
  | Loss (args : gmap string Val) (vars : list (Tensor R)) (value : R)
      (* fn_loss( **arguments) evaluated on these variables *)
  | Perturbations (perturbations : list (Tensor R))
      (* one perturbation drawn per variable *)
  | ApplyStep (deltas vars : list (Tensor R)).
      (* self.apply_step(variables, deltas), and the variables after it *)

(** One draw of the standard normal distribution. *)
Variable standard_normal : G → R * G.

(** [fn_loss( **arguments)]: the loss of the current model, which reads
    the variables; the callable receives a copy of the entries. *)
Variable fn_loss : gmap string Val → list (Tensor R) → Res R.

(** The instance: [self.learning_rate], [self.num_samples],
    [self.unroll_loop]. *)
Record instance := Instance {
  learning_rate : R;
  num_samples : Z;
  unroll_loop : bool
}.

(** [tf.random_normal(shape=...)] *)
Fixpoint random_normal (shape : nat) (g : G) : Tensor R * G :=
  match shape with
  | O => ([], g)
  | S n =>
      let '(x, g1) := standard_normal g in
      let '(t, g2) := random_normal n g1 in
      (x :: t, g2)
  end.

(** [[tf.random_normal(shape=util.shape(variable)) * self.learning_rate
      for variable in variables]] *)
Fixpoint draw_perturbations (learning_rate : R) (variables : list (Tensor R)) (g : G)
    : list (Tensor R) * G :=
  match variables with
  | [] => ([], g)
  | variable :: rest =>
      let '(t, g1) := random_normal (shape variable) g in
      let '(ps, g2) := draw_perturbations learning_rate rest g1 in
      (tensor_times t learning_rate :: ps, g2)
  end.

Definition sample_perturbations (self : instance) : M world event (list (Tensor R)) :=
  λ w, let '(ps, g) :=
         draw_perturbations (learning_rate self) (variables w) (generator w) in
       Ok (ps, World (variables w) (arguments w) g, [Perturbations ps]).

(** Modelled from the spec: [Optimizer.apply_step(variables, deltas)],
    which applies deltas additively to variables and returns a completion
    marker. *)
Definition apply_step (deltas : list (Tensor R)) : M world event unit :=
  λ w, let vs := assign_add (variables w) deltas in
       Ok (tt, World vs (arguments w) (generator w), [ApplyStep deltas vs]).

Definition call_loss : M world event R :=
  λ w, match fn_loss (arguments w) (variables w) with
       | Ok l => Ok (l, w, [Loss (arguments w) (variables w) l])
       | Raise e => Raise e
       end.

(** Lines 61-73: the unperturbed loss and the first sample. *)
Definition first_sample (self : instance)
    : M world event (R * list (Tensor R) * list (Tensor R)) :=
  let* unperturbed_loss := call_loss in
  (* First sample *)
  let* perturbations := sample_perturbations self in
  let* applied := apply_step perturbations in
  let* perturbed_loss := call_loss in
  let direction := s_sign (s_sub unperturbed_loss perturbed_loss) in
  let deltas_sum := (λ perturbation, tensor_scale direction perturbation) <$> perturbations in
  ret (unperturbed_loss, deltas_sum, perturbations).

(** Lines 78-98: one turn of the unrolled loop, on the three names it
    assigns. *)
Definition unrolled_turn (self : instance) (unperturbed_loss : R)
    (names : list (Tensor R) * list (Tensor R) * list (Tensor R))
    : M world event (list (Tensor R) * list (Tensor R) * list (Tensor R)) :=
  let '(deltas_sum, perturbations, previous_perturbations) := names in
  let* perturbations := sample_perturbations self in
  let perturbation_deltas := zip_with tensor_sub perturbations previous_perturbations in
  let* applied := apply_step perturbation_deltas in
  let previous_perturbations := perturbations in
  let* perturbed_loss := call_loss in
  let direction := s_sign (s_sub unperturbed_loss perturbed_loss) in
  let deltas_sum :=
    zip_with (λ delta perturbation, tensor_add delta (tensor_scale direction perturbation))
      deltas_sum perturbations in
  ret (deltas_sum, perturbations, previous_perturbations).

(** Lines 102-123: [def body(deltas_sum, previous_perturbations)]. *)
Definition body (self : instance) (unperturbed_loss : R)
    (loop_vars : list (Tensor R) * list (Tensor R))
    : M world event (list (Tensor R) * list (Tensor R)) :=
  let '(deltas_sum, previous_perturbations) := loop_vars in
  let* perturbations := sample_perturbations self in
  let perturbation_deltas := zip_with tensor_sub perturbations previous_perturbations in
  let* applied := apply_step perturbation_deltas in
  let* perturbed_loss := call_loss in
  let direction := s_sign (s_sub unperturbed_loss perturbed_loss) in
  let deltas_sum :=
    zip_with (λ delta perturbation, tensor_add delta (tensor_scale direction perturbation))
      deltas_sum perturbations in
  ret (deltas_sum, perturbations).

(** Lines 61-128: all the samples, by the strategy of the instance; the
    result is [deltas_sum] and the last [perturbations]. *)
Definition samples (self : instance)
    : M world event (list (Tensor R) * list (Tensor R)) :=
  let* (unperturbed_loss, deltas_sum, perturbations) := first_sample self in
  if unroll_loop self then
    (* Unrolled for loop *)
    let previous_perturbations := perturbations in
    let* (deltas_sum, perturbations, _) :=
      for_range (range (num_samples self - 1)) (unrolled_turn self unperturbed_loss)
        (deltas_sum, perturbations, previous_perturbations) in
    ret (deltas_sum, perturbations)
  else
    (* TensorFlow while loop *)
    while_loop tf_always_true (body self unperturbed_loss)
      (deltas_sum, perturbations) (num_samples self - 1).

(** Lines 130-137: the average, the last application and the return. *)
Definition finish (self : instance) (deltas_sum perturbations : list (Tensor R))
    : M world event (list (Tensor R)) :=
  let deltas := (λ delta, tensor_div_int delta (num_samples self)) <$> deltas_sum in
  let perturbation_deltas := zip_with tensor_sub deltas perturbations in
  let* applied := apply_step perturbation_deltas in
  (* Trivial operation to enforce control dependency *)
  ret (identity_operation <$> deltas).

Definition tf_step (self : instance) : M world event (list (Tensor R)) :=
  let* (deltas_sum, perturbations) := samples self in
  finish self deltas_sum perturbations.

(** What the events of a step say. *)
Definition loss_evaluations (tr : list event)
    : list (gmap string Val * list (Tensor R) * R) :=
  omap (λ e, match e with Loss a vs l => Some (a, vs, l) | _ => None end) tr.

Definition perturbation_sets (tr : list event) : list (list (Tensor R)) :=
  omap (λ e, match e with Perturbations ps => Some ps | _ => None end) tr.

Definition applied_deltas (tr : list event) : list (list (Tensor R)) :=
  omap (λ e, match e with ApplyStep ds _ => Some ds | _ => None end) tr.

Definition variable_states (tr : list event) : list (list (Tensor R)) :=
  omap (λ e, match e with ApplyStep _ vs => Some vs | _ => None end) tr.

(** The variables after each of the applications [applied], made in
    turn from [vars] on. *)
Fixpoint apply_all (vars : list (Tensor R)) (applied : list (list (Tensor R)))
    : list (list (Tensor R)) :=
  match applied with
  | [] => []
  | deltas :: rest => let vs := assign_add vars deltas in vs :: apply_all vs rest
  end.

(** The contribution of one sample to [deltas_sum]. *)
Definition contribution (unperturbed_loss perturbed_loss : R)
    (perturbations : list (Tensor R)) : list (Tensor R) :=
  tensor_scale (s_sign (s_sub unperturbed_loss perturbed_loss)) <$> perturbations.
(** One sample, as a step went through it: the perturbations drawn, the
    deltas applied, the variables after that and the loss on them. *)
Record sample := Sample {
  drawn : list (Tensor R);
  applied : list (Tensor R);
  perturbed : list (Tensor R);
  perturbed_loss : R
}.

Definition sample_events (args : gmap string Val) (s : sample) : list event :=
  [Perturbations (drawn s); ApplyStep (applied s) (perturbed s);
   Loss args (perturbed s) (perturbed_loss s)].

(** Samples that follow one another from the variables [vars], which
    stand at the perturbations [previous]: each is drawn with the shapes
    of the variables, applied as its difference from the one before,
    and its loss is that of the variables it leaves. *)
Fixpoint consecutive (args : gmap string Val) (vars previous : list (Tensor R))
    (ss : list sample) : Prop :=
  match ss with
  | [] => True
  | s :: rest =>
      shape <$> drawn s = shape <$> vars
      ∧ applied s = zip_with tensor_sub (drawn s) previous
      ∧ perturbed s = assign_add vars (applied s)
      ∧ fn_loss args (perturbed s) = Ok (perturbed_loss s)
      ∧ consecutive args (perturbed s) (drawn s) rest
  end.

(** The samples of one step from the world [w]: the first is applied as
    it is, the others follow it. *)
Definition history (w : world) (first : sample) (rest : list sample) : Prop :=
  shape <$> drawn first = shape <$> variables w
  ∧ applied first = drawn first
  ∧ perturbed first = assign_add (variables w) (drawn first)
  ∧ fn_loss (arguments w) (perturbed first) = Ok (perturbed_loss first)
  ∧ consecutive (arguments w) (perturbed first) (drawn first) rest.

(** [deltas_sum] after the samples, against the one unperturbed loss. *)
Definition add_contribution (unperturbed_loss : R) (deltas_sum : list (Tensor R))
    (s : sample) : list (Tensor R) :=
  zip_with tensor_add deltas_sum
    (contribution unperturbed_loss (perturbed_loss s) (drawn s)).

Definition deltas_sum_of (unperturbed_loss : R) (first : sample) (rest : list sample)
    : list (Tensor R) :=
  foldl (add_contribution unperturbed_loss)
    (contribution unperturbed_loss (perturbed_loss first) (drawn first)) rest.

(** The last of the samples. *)
Definition last_sample (first : sample) (rest : list sample) : sample :=
  default first (last rest).

(** [super().__init__(name=name)], of the base class [Optimizer]. *)
Variable Optimizer_init : PyVal R → Res unit.

(** [Evolutionary.__init__(self, name, learning_rate, num_samples=1,
    unroll_loop=False)] *)
Definition __init__ (name learning_rate num_samples unroll_loop : PyVal R) : Res instance :=
  let? _ := Optimizer_init name in
  let? _ := assert (isinstance_float learning_rate
                    && s_gt (float_value learning_rate) (s_of_int 0)) in
  let? _ := assert (isinstance_int num_samples && (0 <? int_value num_samples)) in
  let? _ := assert (isinstance_bool unroll_loop) in
  Ok (Instance (float_value learning_rate) (int_value num_samples) (bool_value unroll_loop)).

Definition default_num_samples : PyVal R := PyInt 1.
Definition default_unroll_loop : PyVal R := PyBool false.

(** A valid configuration: [learning_rate] a float above 0, [num_samples]
    an int above 0, [unroll_loop] a bool. As everywhere in Python, a bool
    is an int: [True] is the int 1 (and [False] the int 0, which is below
    1). *)
Definition valid (learning_rate num_samples unroll_loop : PyVal R) : Prop :=
  (∃ x, learning_rate = PyFloat x ∧ s_gt x (s_of_int 0) = true)
  ∧ ((∃ n, num_samples = PyInt n ∧ 0 < n) ∨ num_samples = PyBool true)
  ∧ (∃ b, unroll_loop = PyBool b).
End Evolutionary.
End Evolutionary.

(** ** Exact arithmetic *)

(** The rationals as scalars: arithmetic without rounding, in which
    [tf.sign] is -1, 0 or 1. They stand for the cases a comparison of two
    losses has, and discharge the laws that only exact arithmetic has;
    what the float tensors of the code compute is [float_scalar] below. *)
#[export] Instance Qc_scalar : Scalar Qc := {|
  s_add := Qcplus;
  s_sub := Qcminus;
  s_mul := Qcmult;
  s_div := Qcdiv;
  s_sign x := match (x ?= 0)%Qc with Gt => 1%Qc | Eq => 0%Qc | Lt => (-1)%Qc end;
  s_gt x y := match (x ?= y)%Qc with Gt => true | _ => false end;
  s_of_int z := Qc_of_Z z
|}.

(** ** Floating-point arithmetic *)

(** IEEE 754 binary64 numbers as scalars, every operation rounded to the
    nearest: the arithmetic of float tensors. [tf.sign] is 1 above zero,
    -1 below it, and its argument otherwise (a zero or NaN). *)
Module Binary64.
Import PrimFloat.
Local Open Scope float_scope.

(** A Python int as a float: exact up to 53 bits. *)
Fixpoint of_pos (p : positive) : float :=
  match p with
  | xH => 1
  | xO p => 2 * of_pos p
  | xI p => 2 * of_pos p + 1
  end.

Definition of_Z (z : Z) : float :=
  match z with
  | Z0 => 0
  | Zpos p => of_pos p
  | Zneg p => - of_pos p
  end.

Definition sign (x : float) : float :=
  if 0 <? x then 1 else if x <? 0 then -1 else x.

(** Tensors compared entry by entry. *)
Definition tensor_eqb (t1 t2 : list float) : bool :=
  (length t1 =? length t2)%nat && forallb (λ xy, xy.1 =? xy.2) (zip t1 t2).

Definition tensors_eqb (a b : list (list float)) : bool :=
  (length a =? length b)%nat && forallb (λ tt, tensor_eqb tt.1 tt.2) (zip a b).
End Binary64.

#[export] Instance float_scalar : Scalar PrimFloat.float := {|
  s_add := PrimFloat.add;
  s_sub := PrimFloat.sub;
  s_mul := PrimFloat.mul;
  s_div := PrimFloat.div;
  s_sign := Binary64.sign;
  s_gt x y := PrimFloat.ltb y x;
  s_of_int := Binary64.of_Z
|}.

(** ** Test doubles *)

Module Fixture.
Local Open Scope Qc_scope.

Definition qc (z : Z) : Qc := Qc_of_Z z.

(** A random source that plays back prepared draws. *)
Definition playback (g : list Qc) : Qc * list Qc :=
  match g with
  | x :: g' => (x, g')
  | [] => (qc 0, [])
  end.

(** The loss [(variable - 3)^2] of a single scalar variable. *)
Definition square_loss (args : gmap string Z) (vars : list (Tensor Qc)) : Res Qc :=
  match vars with
  | [[x]] => Ok ((x - qc 3) * (x - qc 3))
  | _ => Raise (Failure "shape")
  end.

Definition evolutionary (unroll_loop : bool) : Evolutionary.instance :=
  Evolutionary.Instance (qc 1) 3 unroll_loop.

(** One scalar variable at 0, and the draws 1, 2, -1. *)
Definition sampled_world : Evolutionary.world :=
  Evolutionary.World [[qc 0]] (<["target" := 3%Z]> ∅) [qc 1; qc 2; qc (-1)].

(** The same, with the draws 1, 1, 1. *)
Definition steady_world : Evolutionary.world :=
  Evolutionary.World [[qc 0]] (<["target" := 3%Z]> ∅) [qc 1; qc 1; qc 1].

(** The loss that sums [(entry - 1)^2] over all entries of all
    variables. *)
Definition distance_loss (args : gmap string Z) (vars : list (Tensor Qc)) : Res Qc :=
  Ok (foldr (λ t acc, foldr (λ x acc, (x - qc 1) * (x - qc 1) + acc) acc t) (qc 0) vars).

(** Two variables at 0, of one and of two entries; the three samples
    draw 1, then 2, then -1 for every entry. *)
Definition two_variable_world : Evolutionary.world :=
  Evolutionary.World [[qc 0]; [qc 0; qc 0]] (<["target" := 3%Z]> ∅)
    [qc 1; qc 1; qc 1; qc 2; qc 2; qc 2; qc (-1); qc (-1); qc (-1)].

(** A loss that cannot be computed where the variable is 2. *)
Definition fragile_loss (args : gmap string Z) (vars : list (Tensor Qc)) : Res Qc :=
  match vars with
  | [[x]] => match x ?= qc 2 with
             | Eq => Raise (Failure "loss")
             | _ => Ok x
             end
  | _ => Raise (Failure "shape")
  end.

(** A loss that is the same everywhere. *)
Definition flat_loss (args : gmap string Z) (vars : list (Tensor Qc)) : Res Qc :=
  Ok (qc 5).

(** Another scalar variable, other arguments, the same draws as in
    [sampled_world]. *)
Definition shifted_world : @Evolutionary.world Qc Z (list Qc) :=
  Evolutionary.World [[qc 7]] ∅ [qc 1; qc 2; qc (-1)].

(** An inner optimizer that adds 1 to a single scalar variable and
    returns that delta. *)
Definition constant_step (time kwargs : unit) (w : MultiStep.world)
    : Res (list (Tensor Qc) * MultiStep.world (Val:=Z) (Inner:=unit)) :=
  Ok ([[qc 1]], MultiStep.World (assign_add (MultiStep.variables w) [[qc 1]])
               (MultiStep.arguments w) (MultiStep.inner w)).

Definition multi_step (unroll_loop : bool) : MultiStep.instance :=
  MultiStep.Instance 3 unroll_loop.

Definition stepped_world : MultiStep.world :=
  MultiStep.World [[qc 0]] (<["target" := 3%Z]> ∅) tt.

Definition constant_reference (args : gmap string Z) (vars : list (Tensor Qc)) : Res Z :=
  Ok 7%Z.

(** A reference that cannot be computed, and an inner optimizer that
    fails. *)
Definition failing_reference (args : gmap string Z) (vars : list (Tensor Qc)) : Res Z :=
  Raise (Failure "reference").

Definition failing_step (time kwargs : unit) (w : @MultiStep.world Qc Z unit)
    : Res (list (Tensor Qc) * @MultiStep.world Qc Z unit) :=
  Raise (Failure "step").

(** An inner optimizer that adds 1 to every entry of every variable and
    returns these deltas. *)
Definition ones_step (time kwargs : unit) (w : @MultiStep.world Qc Z unit)
    : Res (list (Tensor Qc) * @MultiStep.world Qc Z unit) :=
  let deltas := (λ v : Tensor Qc, (λ _ : Qc, qc 1) <$> v) <$> MultiStep.variables w in
  Ok (deltas, MultiStep.World (assign_add (MultiStep.variables w) deltas)
                (MultiStep.arguments w) (MultiStep.inner w)).

(** An inner optimizer that counts its steps: the first returns (and
    applies) two deltas, every later one a single delta. *)
Definition uneven_step (time kwargs : unit) (w : @MultiStep.world Qc Z nat)
    : Res (list (Tensor Qc) * @MultiStep.world Qc Z nat) :=
  let deltas := match MultiStep.inner w with
                | O => [[qc 1]; [qc 1]]
                | S _ => [[qc 1]]
                end in
  Ok (deltas, MultiStep.World (assign_add (MultiStep.variables w) deltas)
                (MultiStep.arguments w) (S (MultiStep.inner w))).

(** Two scalar variables at 0, before the first step of [uneven_step]. *)
Definition uneven_world : @MultiStep.world Qc Z nat :=
  MultiStep.World [[qc 0]; [qc 0]] (<["target" := 3%Z]> ∅) O.

(** Base-class constructors that accept every name. *)
Definition accept1 (name : PyVal Qc) : Res unit := Ok tt.
Definition accept2 (name optimizer : PyVal Qc) : Res unit := Ok tt.
End Fixture.

(** Test doubles on binary64 numbers. *)
Module FloatFixture.
Import PrimFloat.
Local Open Scope float_scope.

(** The floats that Python writes [0.1] and [0.2]. *)
Definition tenth : float := 1 / 10.
Definition fifth : float := 2 / 10.

Definition playback (g : list float) : float * list float :=
  match g with
  | x :: g' => (x, g')
  | [] => (0, [])
  end.

(** A loss that is the same everywhere. *)
Definition level_loss (args : gmap string Z) (vars : list (Tensor float)) : Res float :=
  Ok 1.

(** The loss [(variable - 3)^2] of a single scalar variable. *)
Definition square_loss (args : gmap string Z) (vars : list (Tensor float)) : Res float :=
  match vars with
  | [[x]] => Ok ((x - 3) * (x - 3))
  | _ => Raise (Failure "shape")
  end.

Definition evolutionary (num_samples : Z) : Evolutionary.instance :=
  Evolutionary.Instance (1 : float) num_samples false.

(** One scalar variable at 0.1, and the draw 0.2. *)
Definition tie_world : @Evolutionary.world float Z (list float) :=
  Evolutionary.World [[tenth]] ∅ [fifth].

(** One scalar variable at 0, and the draws 0.1, 0.1, 0.1. *)
Definition steady_world : @Evolutionary.world float Z (list float) :=
  Evolutionary.World [[0]] ∅ [tenth; tenth; tenth].
End FloatFixture.

(** * Properties *)

(** ** The monad and the loops *)

Section MonadFacts.
Context {W E : Type}.

Lemma bind_ok_inv {A B} (m : M W E A) (f : A → M W E B) w b w2 t :
  bind m f w = Ok (b, w2, t) →
  ∃ a w1 t1 t2, m w = Ok (a, w1, t1) ∧ f a w1 = Ok (b, w2, t2) ∧ t = t1 ++ t2.
Proof.
  unfold bind. destruct (m w) as [[[a w1] t1]|e]; [|discriminate].
  destruct (f a w1) as [[[b' w2'] t2]|e] eqn:Hf; [|discriminate].
  intros [= -> -> <-]. by exists a, w1, t1, t2.
Qed.

Lemma bind_ok {A B} (m : M W E A) (f : A → M W E B) w a w1 t1 b w2 t2 :
  m w = Ok (a, w1, t1) → f a w1 = Ok (b, w2, t2) →
  bind m f w = Ok (b, w2, t1 ++ t2).
Proof. unfold bind. by intros -> ->. Qed.

Lemma bind_ext {A B} (m : M W E A) (f g : A → M W E B) w :
  (∀ a w1, f a w1 = g a w1) → bind m f w = bind m g w.
Proof.
  intros Hfg. unfold bind. destruct (m w) as [[[a w1] t1]|e]; [|done].
  by rewrite Hfg.
Qed.

Lemma bind_ret_r {A} (m : M W E A) w : bind m ret w = m w.
Proof.
  unfold bind, ret. destruct (m w) as [[[a w1] t1]|e]; [|done].
  by rewrite app_nil_r.
Qed.

Lemma bind_assoc {A B C} (m : M W E A) (f : A → M W E B) (g : B → M W E C) w :
  bind (bind m f) g w = bind m (λ a, bind (f a) g) w.
Proof.
  unfold bind. destruct (m w) as [[[a w1] t1]|e]; [|done].
  destruct (f a w1) as [[[b w2] t2]|e]; [|done].
  destruct (g b w2) as [[[c w3] t3]|e]; [|done].
  by rewrite app_assoc.
Qed.

Lemma for_range_ext {A} n (f g : A → M W E A) acc w :
  (∀ a w1, f a w1 = g a w1) → for_range n f acc w = for_range n g acc w.
Proof.
  intros Hfg. revert acc w. induction n as [|n IH]; intros acc w; [done|].
  simpl. unfold bind. rewrite Hfg.
  destruct (g acc w) as [[[a w1] t1]|e]; [|done]. by rewrite IH.
Qed.

(** A loop whose condition is always true runs to its maximum: it is the
    unrolled loop. *)
Lemma while_loop_always_true {A} n (body : A → M W E A) loop_vars w :
  while_loop_from n tf_always_true body loop_vars w = for_range n body loop_vars w.
Proof.
  revert loop_vars w. induction n as [|n IH]; intros v w; [done|].
  simpl. apply bind_ext. intros a w1. apply IH.
Qed.
End MonadFacts.

(** ** MultiStep *)

Section MultiStepFacts.
Context {R : Type} `{Scalar R} {Val Time Kwargs Inner : Type}.
Local Abbreviation world := (@MultiStep.world R Val Inner).
Variable optimizer_step : Time → Kwargs → world → Res (list (Tensor R) * world).
Local Abbreviation tf_step := (MultiStep.tf_step optimizer_step).

Lemma MultiStep_unrolled_while n b time kwargs fn_reference w :
  tf_step (MultiStep.Instance n b) time kwargs fn_reference w
  = tf_step (MultiStep.Instance n (negb b)) time kwargs fn_reference w.
Proof.
  unfold MultiStep.tf_step.
  do 3 (apply bind_ext; intros ? ?).
  destruct b; simpl; unfold while_loop, range.
  - by rewrite while_loop_always_true.
  - by rewrite while_loop_always_true.
Qed.

Local Abbreviation step := (MultiStep.step optimizer_step).
Local Abbreviation add_deltas := (zip_with (tensor_add (R:=R))).

(** The loop adds to [deltas] what the invocations return, one after the
    other. *)
Lemma for_range_invoke_steps n time kwargs deltas w :
  for_range n (MultiStep.body optimizer_step time kwargs) deltas w
  = bind (MultiStep.invoke_steps optimizer_step n time kwargs)
      (λ ds, ret (foldl add_deltas deltas ds)) w.
Proof.
  revert deltas w. induction n as [|n IH]; intros deltas w; [done|].
  simpl. unfold MultiStep.body. rewrite !bind_assoc.
  apply bind_ext. intros d w1.
  unfold bind at 1. simpl. rewrite IH.
  unfold bind, ret. simpl.
  destruct (MultiStep.invoke_steps _ _ _ _ _) as [[[ds w2] t2]|e]; [|done].
  by rewrite !app_nil_r.
Qed.


Lemma invoke_steps_events n time kwargs w ds w' tr :
  MultiStep.invoke_steps optimizer_step n time kwargs w = Ok (ds, w', tr) →
  Forall MultiStep.is_step tr ∧ length tr = n
  ∧ MultiStep.step_deltas tr = ds ∧ length ds = n.
Proof.
  revert w ds w' tr. induction n as [|n IH]; intros w ds w' tr; simpl.
  - unfold ret. by intros [= <- <- <-].
  - intros (d & w1 & t1 & t2 & Hstep & Hrest & ->)%bind_ok_inv.
    apply bind_ok_inv in Hrest as (ds' & w2 & t3 & t4 & Hinv & Hret & ->).
    unfold ret in Hret. injection Hret as <- <- <-.
    apply IH in Hinv as (Hall & Hlen & Hds & Hlen').
    unfold MultiStep.step in Hstep.
    destruct (optimizer_step time kwargs w) as [[d0 w0]|e]; [|done].
    injection Hstep as <- <- <-. rewrite app_nil_r. simpl.
    split; [by constructor|]. by rewrite Hlen, Hds, Hlen'.
Qed.

Lemma invoke_steps_arguments n time kwargs w ds w' tr :
  MultiStep.keeps_arguments optimizer_step time kwargs →
  MultiStep.invoke_steps optimizer_step n time kwargs w = Ok (ds, w', tr) →
  MultiStep.arguments w' = MultiStep.arguments w
  ∧ MultiStep.step_arguments tr = replicate n (MultiStep.arguments w).
Proof.
  intros Hkeep. revert w ds w' tr. induction n as [|n IH]; intros w ds w' tr; simpl.
  - unfold ret. by intros [= <- <- <-].
  - intros (d & w1 & t1 & t2 & Hstep & Hrest & ->)%bind_ok_inv.
    apply bind_ok_inv in Hrest as (ds' & w2 & t3 & t4 & Hinv & Hret & ->).
    unfold ret in Hret. injection Hret as <- <- <-.
    apply IH in Hinv as (Hargs & Htr).
    unfold MultiStep.step in Hstep.
    destruct (optimizer_step time kwargs w) as [[d0 w0]|e] eqn:Hopt; [|done].
    injection Hstep as <- <- <-. apply Hkeep in Hopt.
    rewrite app_nil_r. simpl. rewrite Htr, Hargs, Hopt. done.
Qed.

(** Under either strategy the step is: the reference, the assignment, the
    first inner step, and [num_steps - 1] turns of the loop. *)
Lemma tf_step_for_range self time kwargs fn_reference w :
  tf_step self time kwargs fn_reference w
  = bind (MultiStep.call_reference fn_reference) (λ reference,
      bind (MultiStep.setitem "reference" reference) (λ _,
        bind (step time kwargs) (λ deltas,
          for_range (range (MultiStep.num_steps self - 1))
            (MultiStep.body optimizer_step time kwargs) deltas))) w.
Proof.
  unfold MultiStep.tf_step.
  do 3 (apply bind_ext; intros ? ?).
  destruct (MultiStep.unroll_loop self); [done|].
  unfold while_loop, range. by rewrite while_loop_always_true.
Qed.


(** A step that returns has called [fn_reference] once, assigned into the
    dict once, and then only invoked the inner optimizer. *)
Lemma tf_step_events self time kwargs fn_reference w deltas w' tr :
  tf_step self time kwargs fn_reference w = Ok (deltas, w', tr) →
  ∃ f r steps,
    fn_reference = Some f
    ∧ f (MultiStep.arguments w) (MultiStep.variables w) = Ok r
    ∧ tr = MultiStep.Reference r :: MultiStep.SetItem "reference" r :: steps
    ∧ Forall MultiStep.is_step steps
    ∧ length steps = S (range (MultiStep.num_steps self - 1))
    ∧ head (MultiStep.step_arguments steps)
      = Some (<["reference" := r]> (MultiStep.arguments w))
    ∧ (MultiStep.keeps_arguments optimizer_step time kwargs →
       MultiStep.arguments w' = <["reference" := r]> (MultiStep.arguments w)
       ∧ MultiStep.step_arguments steps
         = replicate (length steps) (<["reference" := r]> (MultiStep.arguments w))).
Proof.
  rewrite tf_step_for_range.
  intros (r & w1 & t1 & t2 & Href & Hrest & ->)%bind_ok_inv.
  apply bind_ok_inv in Hrest as ([] & w2 & t3 & t4 & Hset & Hrest & ->).
  assert (for_range_S : ∀ w0,
    bind (step time kwargs)
      (λ deltas, for_range (range (MultiStep.num_steps self - 1))
                   (MultiStep.body optimizer_step time kwargs) deltas) w0
    = bind (MultiStep.invoke_steps optimizer_step
              (S (range (MultiStep.num_steps self - 1))) time kwargs)
        (λ ds, ret (MultiStep.elementwise_sum ds)) w0).
  { intros w0. simpl. rewrite bind_assoc. apply bind_ext. intros d w3.
    by rewrite for_range_invoke_steps, bind_assoc. }
  rewrite for_range_S in Hrest.
  apply bind_ok_inv in Hrest as (ds & w3 & t5 & t6 & Hinv & Hret & ->).
  unfold ret in Hret. injection Hret as <- <- <-.
  unfold MultiStep.call_reference in Href.
  destruct fn_reference as [f|]; [|done].
  destruct (f _ _) as [r'|e] eqn:Hf; [|done].
  injection Href as <- <- <-.
  unfold MultiStep.setitem in Hset. injection Hset as <- <-.
  exists f, r', t5. rewrite app_nil_r.
  pose proof (invoke_steps_events _ _ _ _ _ _ _ Hinv) as (Hall & Hlen & Hds).
  split_and!; try done.
  - simpl in Hinv.
    apply bind_ok_inv in Hinv as (d & w4 & t7 & t8 & Hstep & _ & ->).
    unfold MultiStep.step in Hstep.
    destruct (optimizer_step time kwargs _) as [[d0 w0]|e]; [|done].
    by injection Hstep as <- <- <-.
  - intros Hkeep. rewrite Hlen.
    by apply (invoke_steps_arguments _ _ _ _ _ _ _ Hkeep) in Hinv as [-> ->].
Qed.
End MultiStepFacts.

(** ** Evolutionary: the structure of a step *)

Section EvolutionaryFacts.
Context {R : Type} `{Scalar R} {Val G : Type}.
Local Abbreviation world := (@Evolutionary.world R Val G).
Local Abbreviation event := (@Evolutionary.event R Val).
Variable standard_normal : G → R * G.
Variable fn_loss : gmap string Val → list (Tensor R) → Res R.
Local Abbreviation body := (Evolutionary.body standard_normal fn_loss).
Local Abbreviation unrolled_turn := (Evolutionary.unrolled_turn standard_normal fn_loss).
Local Abbreviation first_sample := (Evolutionary.first_sample standard_normal fn_loss).
Local Abbreviation samples := (Evolutionary.samples standard_normal fn_loss).
Local Abbreviation tf_step := (Evolutionary.tf_step standard_normal fn_loss).
Local Abbreviation consecutive := (Evolutionary.consecutive fn_loss).
Local Abbreviation history := (Evolutionary.history fn_loss).

Lemma random_normal_length n g :
  length (Evolutionary.random_normal standard_normal n g).1 = n.
Proof.
  revert g. induction n as [|n IH]; intros g; [done|]. simpl.
  destruct (standard_normal g) as [x g1]. specialize (IH g1).
  destruct (Evolutionary.random_normal standard_normal n g1) as [t g2].
  simpl in *. by rewrite IH.
Qed.

(** Every perturbation has the shape of its variable. *)
Lemma draw_perturbations_shape lr vars g :
  shape <$> (Evolutionary.draw_perturbations standard_normal lr vars g).1
  = shape <$> vars.
Proof.
  revert g. induction vars as [|v vars IH]; intros g; [done|]. simpl.
  pose proof (random_normal_length (shape v) g) as Hlen.
  destruct (Evolutionary.random_normal standard_normal (shape v) g) as [t g1].
  specialize (IH g1).
  destruct (Evolutionary.draw_perturbations standard_normal lr vars g1) as [ps g2].
  simpl in *. f_equal; [|exact IH].
  unfold shape, tensor_times. by rewrite length_fmap.
Qed.

(** One turn of the loop draws, applies the difference, evaluates the
    loss, and adds the signed perturbation. *)
Lemma body_inv self unperturbed_loss deltas_sum previous w deltas_sum' ps w' tr :
  body self unperturbed_loss (deltas_sum, previous) w = Ok ((deltas_sum', ps), w', tr) →
  ∃ s, Evolutionary.drawn s = ps
       ∧ consecutive (Evolutionary.arguments w) (Evolutionary.variables w) previous [s]
       ∧ tr = Evolutionary.sample_events (Evolutionary.arguments w) s
       ∧ deltas_sum' = Evolutionary.add_contribution unperturbed_loss deltas_sum s
       ∧ Evolutionary.variables w' = Evolutionary.perturbed s
       ∧ Evolutionary.arguments w' = Evolutionary.arguments w.
Proof.
  unfold Evolutionary.body.
  intros (ps0 & w1 & t1 & t2 & Hdraw & Hrest & ->)%bind_ok_inv.
  apply bind_ok_inv in Hrest as ([] & w2 & t3 & t4 & Happly & Hrest & ->).
  apply bind_ok_inv in Hrest as (l & w3 & t5 & t6 & Hloss & Hret & ->).
  unfold ret in Hret. injection Hret as <- <- <- <-.
  unfold Evolutionary.sample_perturbations in Hdraw.
  pose proof (draw_perturbations_shape (Evolutionary.learning_rate self)
                (Evolutionary.variables w)
                (Evolutionary.generator w)) as Hshape.
  destruct (Evolutionary.draw_perturbations _ _ _ _) as [ps1 g1].
  injection Hdraw as <- <- <-.
  unfold Evolutionary.apply_step in Happly. injection Happly as <- <-.
  unfold Evolutionary.call_loss in Hloss. simpl in Hloss.
  destruct (fn_loss _ _) as [l0|e] eqn:Hl; [|done].
  injection Hloss as <- <- <-.
  eexists (Evolutionary.Sample _ _ _ _). simpl.
  split_and!; try done.
  unfold Evolutionary.add_contribution, Evolutionary.contribution. simpl.
  by rewrite zip_with_fmap_r.
Qed.

Lemma first_sample_inv self w unperturbed_loss deltas_sum ps w' tr :
  first_sample self w = Ok ((unperturbed_loss, deltas_sum, ps), w', tr) →
  ∃ s, fn_loss (Evolutionary.arguments w) (Evolutionary.variables w) = Ok unperturbed_loss
       ∧ Evolutionary.drawn s = ps
       ∧ history w s []
       ∧ tr = Evolutionary.Loss (Evolutionary.arguments w) (Evolutionary.variables w)
                unperturbed_loss
              :: Evolutionary.sample_events (Evolutionary.arguments w) s
       ∧ deltas_sum = Evolutionary.deltas_sum_of unperturbed_loss s []
       ∧ Evolutionary.variables w' = Evolutionary.perturbed s
       ∧ Evolutionary.arguments w' = Evolutionary.arguments w.
Proof.
  unfold Evolutionary.first_sample.
  intros (l0 & w0 & t0 & t0' & Hloss0 & Hrest & ->)%bind_ok_inv.
  apply bind_ok_inv in Hrest as (ps0 & w1 & t1 & t2 & Hdraw & Hrest & ->).
  apply bind_ok_inv in Hrest as ([] & w2 & t3 & t4 & Happly & Hrest & ->).
  apply bind_ok_inv in Hrest as (l & w3 & t5 & t6 & Hloss & Hret & ->).
  unfold ret in Hret. injection Hret as <- <- <- <- <-.
  unfold Evolutionary.call_loss in Hloss0.
  destruct (fn_loss _ _) as [l1|e] eqn:Hl0; [|done].
  injection Hloss0 as <- <- <-.
  unfold Evolutionary.sample_perturbations in Hdraw.
  pose proof (draw_perturbations_shape (Evolutionary.learning_rate self)
                (Evolutionary.variables w)
                (Evolutionary.generator w)) as Hshape.
  destruct (Evolutionary.draw_perturbations _ _ _ _) as [ps1 g1].
  injection Hdraw as <- <- <-.
  unfold Evolutionary.apply_step in Happly. injection Happly as <- <-.
  unfold Evolutionary.call_loss in Hloss. simpl in Hloss.
  destruct (fn_loss _ (assign_add _ _)) as [l2|e] eqn:Hl; [|done].
  injection Hloss as <- <- <-.
  eexists (Evolutionary.Sample _ _ _ _). unfold Evolutionary.history. simpl.
  split_and!; done.
Qed.
Lemma for_range_body_inv self unperturbed_loss k deltas_sum previous w deltas_sum' ps w' tr :
  for_range k (body self unperturbed_loss) (deltas_sum, previous) w
    = Ok ((deltas_sum', ps), w', tr) →
  ∃ ss, length ss = k
        ∧ consecutive (Evolutionary.arguments w) (Evolutionary.variables w) previous ss
        ∧ tr = concat (Evolutionary.sample_events (Evolutionary.arguments w) <$> ss)
        ∧ deltas_sum' = foldl (Evolutionary.add_contribution unperturbed_loss) deltas_sum ss
        ∧ ps = default previous (Evolutionary.drawn <$> last ss)
        ∧ Evolutionary.variables w'
          = default (Evolutionary.variables w) (Evolutionary.perturbed <$> last ss)
        ∧ Evolutionary.arguments w' = Evolutionary.arguments w.
Proof.
  revert deltas_sum previous w deltas_sum' ps w' tr.
  induction k as [|k IH]; intros deltas_sum previous w deltas_sum' ps w' tr; simpl.
  - unfold ret. intros [= <- <- <- <-]. by exists [].
  - intros ([ds1 ps1] & w1 & t1 & t2 & Hbody & Hrest & ->)%bind_ok_inv.
    apply body_inv in Hbody as (s & Hps & Hcons & -> & -> & Hvars & Hargs).
    apply IH in Hrest as (ss & Hlen & Hcons' & -> & -> & -> & Hvars' & Hargs').
    exists (s :: ss). simpl in Hcons. destruct Hcons as (? & ? & ? & ? & _).
    rewrite Hargs, Hvars, <- Hps in Hcons'. rewrite Hargs in Hargs'.
    rewrite Hvars', Hargs', Hvars, Hargs, <- Hps.
    split_and!; try done.
    + simpl. by rewrite Hlen.
    + rewrite last_cons. by destruct (last ss).
    + rewrite last_cons. by destruct (last ss).
Qed.

(** The unrolled turn is the body of the while loop, with one more name
    for the perturbations. *)
Lemma unrolled_turn_body self unperturbed_loss deltas_sum ps previous w :
  unrolled_turn self unperturbed_loss (deltas_sum, ps, previous) w
  = bind (body self unperturbed_loss (deltas_sum, previous))
      (λ '(deltas_sum', ps'), ret (deltas_sum', ps', ps')) w.
Proof.
  unfold Evolutionary.unrolled_turn, Evolutionary.body.
  rewrite !bind_assoc. apply bind_ext. intros ps1 w1.
  rewrite !bind_assoc. apply bind_ext. intros [] w2.
  rewrite !bind_assoc. apply bind_ext. intros l w3.
  unfold bind, ret. simpl. done.
Qed.

Lemma for_range_unrolled_turn self unperturbed_loss k deltas_sum ps w :
  for_range k (unrolled_turn self unperturbed_loss) (deltas_sum, ps, ps) w
  = bind (for_range k (body self unperturbed_loss) (deltas_sum, ps))
      (λ '(deltas_sum', ps'), ret (deltas_sum', ps', ps')) w.
Proof.
  revert deltas_sum ps w. induction k as [|k IH]; intros deltas_sum ps w; [done|].
  cbn [for_range]. rewrite bind_assoc.
  unfold bind at 1. rewrite unrolled_turn_body.
  unfold bind at 1 2 3.
  destruct (body self unperturbed_loss (deltas_sum, ps) w)
    as [[[[ds1 ps1] w1] t1]|e]; [|done].
  unfold ret at 1. rewrite IH, app_nil_r. done.
Qed.

(** Under either strategy the samples are: the first one, and
    [num_samples - 1] turns of the body. *)
Lemma samples_for_range self w :
  samples self w
  = bind (first_sample self)
      (λ '(unperturbed_loss, deltas_sum, ps),
         for_range (range (Evolutionary.num_samples self - 1))
           (body self unperturbed_loss) (deltas_sum, ps)) w.
Proof.
  unfold Evolutionary.samples. apply bind_ext. intros [[l ds] ps] w1.
  destruct (Evolutionary.unroll_loop self).
  - unfold bind at 1. rewrite for_range_unrolled_turn.
    unfold bind, ret.
    destruct (for_range _ _ _ w1) as [[[[ds1 ps1] w2] t2]|e]; [|done].
    simpl. by rewrite !app_nil_r.
  - unfold while_loop, range. by rewrite while_loop_always_true.
Qed.
(** A step that returns went through a history of samples, averaged
    their sum, and applied the difference to the last perturbations. *)
Lemma tf_step_inv self w deltas w' tr :
  tf_step self w = Ok (deltas, w', tr) →
  ∃ unperturbed_loss first rest,
    fn_loss (Evolutionary.arguments w) (Evolutionary.variables w) = Ok unperturbed_loss
    ∧ history w first rest
    ∧ length rest = range (Evolutionary.num_samples self - 1)
    ∧ deltas = (λ delta, tensor_div_int delta (Evolutionary.num_samples self))
               <$> Evolutionary.deltas_sum_of unperturbed_loss first rest
    ∧ tr = Evolutionary.Loss (Evolutionary.arguments w) (Evolutionary.variables w)
             unperturbed_loss
           :: concat (Evolutionary.sample_events (Evolutionary.arguments w)
                      <$> first :: rest)
           ++ [Evolutionary.ApplyStep
                 (zip_with tensor_sub deltas
                    (Evolutionary.drawn (Evolutionary.last_sample first rest)))
                 (Evolutionary.variables w')]
    ∧ Evolutionary.variables w'
      = assign_add (Evolutionary.perturbed (Evolutionary.last_sample first rest))
          (zip_with tensor_sub deltas
             (Evolutionary.drawn (Evolutionary.last_sample first rest)))
    ∧ Evolutionary.arguments w' = Evolutionary.arguments w.
Proof.
  unfold Evolutionary.tf_step.
  intros ([ds ps] & w1 & t1 & t2 & Hsamples & Hfinish & ->)%bind_ok_inv.
  rewrite samples_for_range in Hsamples.
  apply bind_ok_inv in Hsamples
    as ([[l0 ds0] ps0] & w0 & t3 & t4 & Hfirst & Hloop & ->).
  apply first_sample_inv in Hfirst
    as (first & Hl0 & <- & Hhist & -> & -> & Hvars0 & Hargs0).
  apply for_range_body_inv in Hloop
    as (rest & Hlen & Hcons & -> & -> & -> & Hvars1 & Hargs1).
  unfold Evolutionary.finish in Hfinish.
  apply bind_ok_inv in Hfinish as ([] & w2 & t5 & t6 & Happly & Hret & ->).
  unfold ret in Hret. injection Hret as <- <- <-.
  unfold Evolutionary.apply_step in Happly. injection Happly as <- <-.
  rewrite Hvars0, Hargs0 in *. simpl.
  assert (Hid : ∀ l : list (Tensor R), identity_operation <$> l = l)
    by (intros l; apply list_fmap_id).
  rewrite Hid, Hvars1, Hargs1.
  exists l0, first, rest.
  destruct Hhist as (? & ? & ? & ? & _).
  assert (Hlast :
    default (Evolutionary.drawn first) (Evolutionary.drawn <$> last rest)
    = Evolutionary.drawn (Evolutionary.last_sample first rest)
    ∧ default (Evolutionary.perturbed first) (Evolutionary.perturbed <$> last rest)
    = Evolutionary.perturbed (Evolutionary.last_sample first rest)).
  { unfold Evolutionary.last_sample. by destruct (last rest). }
  destruct Hlast as [-> ->].
  split_and!; done.
Qed.

(** The two strategies are one computation. *)
Lemma Evolutionary_unrolled_while lr n b w :
  tf_step (Evolutionary.Instance lr n b) w
  = tf_step (Evolutionary.Instance lr n (negb b)) w.
Proof.
  unfold Evolutionary.tf_step, bind. by rewrite !samples_for_range.
Qed.
(** What the events of a history say. *)
Lemma history_events a (ss : list Evolutionary.sample) (tl : list event) :
  Evolutionary.loss_evaluations
    (concat (Evolutionary.sample_events a <$> ss) ++ tl)
  = ((λ s, (a, Evolutionary.perturbed s, Evolutionary.perturbed_loss s)) <$> ss)
    ++ Evolutionary.loss_evaluations tl
  ∧ Evolutionary.perturbation_sets
      (concat (Evolutionary.sample_events a <$> ss) ++ tl)
    = (Evolutionary.drawn <$> ss) ++ Evolutionary.perturbation_sets tl
  ∧ Evolutionary.applied_deltas
      (concat (Evolutionary.sample_events a <$> ss) ++ tl)
    = (Evolutionary.applied <$> ss) ++ Evolutionary.applied_deltas tl
  ∧ Evolutionary.variable_states
      (concat (Evolutionary.sample_events a <$> ss) ++ tl)
    = (Evolutionary.perturbed <$> ss) ++ Evolutionary.variable_states tl.
Proof.
  induction ss as [|s ss (IH1 & IH2 & IH3 & IH4)]; [done|].
  cbn [fmap list_fmap concat Evolutionary.sample_events app].
  unfold Evolutionary.loss_evaluations, Evolutionary.perturbation_sets,
    Evolutionary.applied_deltas, Evolutionary.variable_states in *.
  cbn [omap list_omap]. rewrite IH1, IH2, IH3, IH4. done.
Qed.

(** The step returns whenever the loss can be evaluated. *)
Lemma body_returns self unperturbed_loss loop_vars w :
  (∀ a vs, ∃ l, fn_loss a vs = Ok l) →
  ∃ r, body self unperturbed_loss loop_vars w = Ok r.
Proof.
  intros Htotal. destruct loop_vars as [ds ps].
  unfold Evolutionary.body, bind, Evolutionary.sample_perturbations,
    Evolutionary.apply_step, Evolutionary.call_loss, ret.
  destruct (Evolutionary.draw_perturbations _ _ _ _) as [ps1 g1]. simpl.
  destruct (Htotal (Evolutionary.arguments w)
              (assign_add (Evolutionary.variables w) (zip_with tensor_sub ps1 ps)))
    as [l ->].
  by eexists.
Qed.

Lemma for_range_body_returns self unperturbed_loss k loop_vars w :
  (∀ a vs, ∃ l, fn_loss a vs = Ok l) →
  ∃ r, for_range k (body self unperturbed_loss) loop_vars w = Ok r.
Proof.
  intros Htotal. revert loop_vars w.
  induction k as [|k IH]; intros loop_vars w; [by eexists|].
  cbn [for_range]. unfold bind.
  destruct (body_returns self unperturbed_loss loop_vars w Htotal)
    as [[[v w1] t1] ->].
  destruct (IH v w1) as [[[v2 w2] t2] ->]. by eexists.
Qed.

Lemma tf_step_returns self w :
  (∀ a vs, ∃ l, fn_loss a vs = Ok l) →
  ∃ deltas w' tr, tf_step self w = Ok (deltas, w', tr).
Proof.
  intros Htotal. unfold Evolutionary.tf_step. unfold bind at 1.
  rewrite samples_for_range. unfold bind at 1.
  unfold Evolutionary.first_sample, bind, Evolutionary.sample_perturbations,
    Evolutionary.apply_step, Evolutionary.call_loss, ret.
  destruct (Htotal (Evolutionary.arguments w) (Evolutionary.variables w)) as [l0 ->].
  destruct (Evolutionary.draw_perturbations _ _ _ _) as [ps1 g1]. simpl.
  destruct (Htotal (Evolutionary.arguments w)
              (assign_add (Evolutionary.variables w) ps1)) as [l ->].
  match goal with
  | |- context [for_range ?k (body self ?u) ?v ?w1] =>
      destruct (for_range_body_returns self u k v w1 Htotal) as [[[[ds ps] w2] t2] ->]
  end.
  unfold Evolutionary.finish, bind, Evolutionary.apply_step, ret. by eexists _, _, _.
Qed.
End EvolutionaryFacts.

(** ** Shapes *)

Section ShapeFacts.
Context {R : Type} `{Scalar R}.

Lemma shape_tensor_add (t1 t2 : Tensor R) :
  shape t2 = shape t1 → shape (tensor_add t1 t2) = shape t1.
Proof. unfold shape, tensor_add. rewrite length_zip_with. lia. Qed.

Lemma shapes_zip_with_tensor_add (a b : list (Tensor R)) :
  shape <$> b = shape <$> a → shape <$> zip_with tensor_add a b = shape <$> a.
Proof.
  revert b. induction a as [|x a IH]; intros [|y b]; try done.
  intros [= Hxy Hab]. cbn [zip_with fmap list_fmap]. f_equal.
  - by apply shape_tensor_add.
  - by apply IH.
Qed.

Lemma shapes_assign_add (vars deltas : list (Tensor R)) :
  shape <$> deltas = shape <$> vars → shape <$> assign_add vars deltas = shape <$> vars.
Proof.
  revert deltas. induction vars as [|x a IH]; intros [|y b]; try done.
  intros [= Hxy Hab]. cbn [assign_add fmap list_fmap]. f_equal.
  - by apply shape_tensor_add.
  - by apply IH.
Qed.

Lemma shapes_scale (c : R) (ps : list (Tensor R)) :
  shape <$> (tensor_scale c <$> ps) = shape <$> ps.
Proof.
  rewrite <- list_fmap_compose. apply list_fmap_ext. intros _ p _.
  unfold shape, tensor_scale. simpl. by rewrite length_fmap.
Qed.

Lemma shapes_div_int (n : Z) (ds : list (Tensor R)) :
  shape <$> ((λ delta, tensor_div_int delta n) <$> ds) = shape <$> ds.
Proof.
  rewrite <- list_fmap_compose. apply list_fmap_ext. intros _ p _.
  unfold shape, tensor_div_int. simpl. by rewrite length_fmap.
Qed.

Lemma shapes_deltas_sum_of (l0 : R) first rest (sh : list nat) :
  Forall (λ s, shape <$> Evolutionary.drawn s = sh) (first :: rest) →
  shape <$> Evolutionary.deltas_sum_of l0 first rest = sh.
Proof.
  intros [Hfirst Hrest]%Forall_cons. unfold Evolutionary.deltas_sum_of.
  assert (Hacc : shape <$> Evolutionary.contribution l0
                   (Evolutionary.perturbed_loss first) (Evolutionary.drawn first) = sh).
  { unfold Evolutionary.contribution. by rewrite shapes_scale. }
  revert Hacc. generalize (Evolutionary.contribution l0
    (Evolutionary.perturbed_loss first) (Evolutionary.drawn first)).
  induction Hrest as [|s rest Hs Hrest IH]; intros acc Hacc; [done|].
  simpl. apply IH. unfold Evolutionary.add_contribution.
  rewrite shapes_zip_with_tensor_add; [done|].
  unfold Evolutionary.contribution. by rewrite shapes_scale, Hs, Hacc.
Qed.
End ShapeFacts.

(** ** Exact arithmetic on tensors *)

Section ExactFacts.
Context {R : Type} `{Scalar R}.
(** Adding [b] and then the difference [c - b] is adding [c]: true of
    exact arithmetic, not of rounded arithmetic. *)
Hypothesis cancel : ∀ a b c : R, s_add (s_add a b) (s_sub c b) = s_add a c.

Lemma tensor_add_sub (o p q : Tensor R) :
  shape p = shape o → shape q = shape o →
  tensor_add (tensor_add o p) (tensor_sub q p) = tensor_add o q.
Proof using cancel.
  unfold shape, tensor_add, tensor_sub.
  revert p q. induction o as [|x o IH]; intros [|y p] [|z q]; try done.
  intros [= Hp] [= Hq]. cbn. f_equal; [apply cancel|]. by apply IH.
Qed.

(** Applying the difference moves the variables from one perturbation to
    the next. *)
Lemma assign_add_sub (vars ps qs : list (Tensor R)) :
  shape <$> ps = shape <$> vars → shape <$> qs = shape <$> vars →
  assign_add (assign_add vars ps) (zip_with tensor_sub qs ps) = assign_add vars qs.
Proof using cancel.
  revert ps qs. induction vars as [|x o IH]; intros [|y p] [|z q]; try done.
  intros [= Hy Hp] [= Hz Hq]. cbn [assign_add zip_with]. f_equal.
  - by apply tensor_add_sub.
  - by apply IH.
Qed.
End ExactFacts.

(** ** Histories of samples *)

Section HistoryFacts.
Context {R : Type} `{Scalar R} {Val G : Type}.
Variable fn_loss : gmap string Val → list (Tensor R) → Res R.
Local Abbreviation consecutive := (Evolutionary.consecutive fn_loss).

Lemma shapes_zip_with_tensor_sub (a b : list (Tensor R)) :
  shape <$> b = shape <$> a → shape <$> zip_with tensor_sub a b = shape <$> a.
Proof.
  revert b. induction a as [|x a IH]; intros [|y b]; try done.
  intros [= Hxy Hab]. cbn [zip_with fmap list_fmap]. f_equal.
  - unfold shape, tensor_sub in *. rewrite length_zip_with. lia.
  - by apply IH.
Qed.

(** Perturbations and variables keep the shapes of the variables. *)
Lemma consecutive_shapes args sh ss vars previous :
  shape <$> vars = sh → shape <$> previous = sh →
  consecutive args vars previous ss →
  Forall (λ s, shape <$> Evolutionary.drawn s = sh
               ∧ shape <$> Evolutionary.perturbed s = sh) ss.
Proof.
  revert vars previous. induction ss as [|s ss IH]; intros vars previous Hv Hp; [done|].
  intros (Hshape & Happ & Hpert & _ & Hrest). rewrite Hv in Hshape.
  assert (shape <$> Evolutionary.perturbed s = sh) as Hs.
  { rewrite Hpert, shapes_assign_add; [done|].
    rewrite Happ, shapes_zip_with_tensor_sub; congruence. }
  constructor; [done|]. by apply (IH _ _ Hs Hshape).
Qed.

(** Each application after the first is the difference of two
    consecutive perturbations. *)
Lemma consecutive_applied args ss vars previous :
  consecutive args vars previous ss →
  Evolutionary.applied <$> ss
  = zip_with (zip_with tensor_sub) (Evolutionary.drawn <$> ss)
      (previous :: (Evolutionary.drawn <$> ss)).
Proof.
  revert vars previous. induction ss as [|s ss IH]; intros vars previous; [done|].
  intros (_ & Happ & _ & _ & Hrest). cbn [fmap list_fmap zip_with].
  f_equal; [done|]. by apply IH in Hrest.
Qed.

Lemma consecutive_losses args ss vars previous :
  consecutive args vars previous ss →
  Forall (λ s, fn_loss args (Evolutionary.perturbed s)
               = Ok (Evolutionary.perturbed_loss s)) ss.
Proof.
  revert vars previous. induction ss as [|s ss IH]; intros vars previous; [done|].
  intros (_ & _ & _ & Hloss & Hrest). constructor; [done|]. by apply IH in Hrest.
Qed.

Lemma zip_with_snoc {A B C} (f : A → B → C) (l : list A) (x : A) (p : B) (k : list B) :
  length k = length l →
  zip_with f (l ++ [x]) (p :: k)
  = zip_with f l (p :: k) ++ [f x (default p (last k))].
Proof.
  revert p k. induction l as [|a l IH]; intros p [|b k]; try done.
  intros [= Hlen]. cbn [app zip_with]. rewrite (IH b k Hlen).
  rewrite last_cons. by destruct (last k).
Qed.

Lemma drawn_last_sample first rest :
  Evolutionary.drawn (R:=R) (Evolutionary.last_sample first rest)
  = default (Evolutionary.drawn first) (last (Evolutionary.drawn <$> rest)).
Proof.
  unfold Evolutionary.last_sample. rewrite fmap_last. by destruct (last rest).
Qed.

Lemma last_sample_elem_of first rest :
  Evolutionary.last_sample (R:=R) first rest ∈ first :: rest.
Proof.
  unfold Evolutionary.last_sample. destruct (last rest) as [s|] eqn:Hlast.
  - apply elem_of_cons. right. simpl. by apply last_Some_elem_of.
  - apply elem_of_cons. by left.
Qed.
End HistoryFacts.

Section ExactHistoryFacts.
Context {R : Type} `{Scalar R} {Val : Type}.
Variable fn_loss : gmap string Val → list (Tensor R) → Res R.
Hypothesis cancel : ∀ a b c : R, s_add (s_add a b) (s_sub c b) = s_add a c.
Local Abbreviation consecutive := (Evolutionary.consecutive fn_loss).

(** While sampling, the variables are the original ones plus the latest
    perturbation, never a stack of perturbations. *)
Lemma consecutive_perturbed args ss orig previous :
  shape <$> previous = shape <$> orig →
  consecutive args (assign_add orig previous) previous ss →
  Forall (λ s, Evolutionary.perturbed s = assign_add orig (Evolutionary.drawn s)) ss.
Proof using cancel.
  revert previous. induction ss as [|s ss IH]; intros previous Hp; [done|].
  intros (Hshape & Happ & Hpert & _ & Hrest).
  rewrite shapes_assign_add in Hshape by done.
  assert (Evolutionary.perturbed s = assign_add orig (Evolutionary.drawn s)) as Hs.
  { rewrite Hpert, Happ. by apply assign_add_sub. }
  constructor; [done|]. rewrite Hs in Hrest. by apply (IH _ Hshape).
Qed.

Lemma history_perturbed {G} (w : @Evolutionary.world R Val G) first rest :
  Evolutionary.history fn_loss w first rest →
  Forall (λ s, Evolutionary.perturbed s
               = assign_add (Evolutionary.variables w) (Evolutionary.drawn s))
    (first :: rest).
Proof using cancel.
  intros (Hshape & Happ & Hpert & _ & Hrest).
  constructor; [done|]. rewrite Hpert in Hrest.
  by eapply consecutive_perturbed.
Qed.
End ExactHistoryFacts.

(** ** The two strategies *)

Section Strategies.
Context {R : Type} `{Scalar R} {Val Time Kwargs Inner G : Type}.
Variable optimizer_step :
  Time → Kwargs → @MultiStep.world R Val Inner
  → Res (list (Tensor R) * @MultiStep.world R Val Inner).
Variable standard_normal : G → R * G.
Variable fn_loss : gmap string Val → list (Tensor R) → Res R.

Lemma history_shapes (w : Evolutionary.world (G:=G)) first rest :
  Evolutionary.history fn_loss w first rest →
  Forall (λ s, shape <$> Evolutionary.drawn s = shape <$> Evolutionary.variables w
               ∧ shape <$> Evolutionary.perturbed s = shape <$> Evolutionary.variables w)
    (first :: rest).
Proof.
  intros (Hshape & Happ & Hpert & _ & Hrest).
  assert (shape <$> Evolutionary.perturbed first = shape <$> Evolutionary.variables w) as Hs.
  { rewrite Hpert. by apply shapes_assign_add. }
  constructor; [done|].
  exact (consecutive_shapes fn_loss _ _ _ _ _ Hs Hshape Hrest).
Qed.

Lemma tf_step_shapes self (w : Evolutionary.world (G:=G)) deltas w' tr :
  Evolutionary.tf_step standard_normal fn_loss self w = Ok (deltas, w', tr) →
  shape <$> deltas = shape <$> Evolutionary.variables w.
Proof.
  intros (l0 & first & rest & _ & Hhist & _ & -> & _)%tf_step_inv.
  rewrite shapes_div_int. apply shapes_deltas_sum_of.
  eapply Forall_impl; [by apply history_shapes|]. by intros s [? _].
Qed.

(** C1. From the same state of the random generator and with the same
    [num_steps] or [num_samples], the unrolled strategy and the bounded
    loop give the same result: the same deltas, the same final values
    of the variables and the same operations in the same order, or the
    same exception; the deltas of the evolutionary step are one per
    variable, of its shape. *)
Theorem strategies_agree :
  (∀ num_steps time kwargs fn_reference w,
     MultiStep.tf_step optimizer_step (MultiStep.Instance num_steps true)
       time kwargs fn_reference w
     = MultiStep.tf_step optimizer_step (MultiStep.Instance num_steps false)
         time kwargs fn_reference w)
  ∧ (∀ learning_rate num_samples w,
       Evolutionary.tf_step standard_normal fn_loss
         (Evolutionary.Instance learning_rate num_samples true) w
       = Evolutionary.tf_step standard_normal fn_loss
           (Evolutionary.Instance learning_rate num_samples false) w)
  ∧ (∀ self w deltas w' tr,
       Evolutionary.tf_step standard_normal fn_loss self w = Ok (deltas, w', tr) →
       shape <$> deltas = shape <$> Evolutionary.variables w).
Proof.
  split_and!.
  - intros. apply (MultiStep_unrolled_while optimizer_step _ true).
  - intros. apply (Evolutionary_unrolled_while standard_normal fn_loss _ _ true).
  - apply tf_step_shapes.
Qed.



(** C5 (the call that omits [fn_reference]). The step calls
    [fn_reference] before anything else, whatever it is: with the
    default [None] it raises [TypeError] and no inner step is made. *)
Theorem multi_step_without_reference_raises self time kwargs w :
  MultiStep.tf_step optimizer_step self time kwargs None w = Raise TypeError.
Proof. done. Qed.
Lemma tf_step_trace self (w : Evolutionary.world (G:=G)) deltas w' tr :
  Evolutionary.tf_step standard_normal fn_loss self w = Ok (deltas, w', tr) →
  ∃ unperturbed_loss first rest,
    fn_loss (Evolutionary.arguments w) (Evolutionary.variables w) = Ok unperturbed_loss
    ∧ Evolutionary.history fn_loss w first rest
    ∧ length rest = range (Evolutionary.num_samples self - 1)
    ∧ deltas = (λ delta, tensor_div_int delta (Evolutionary.num_samples self))
               <$> Evolutionary.deltas_sum_of unperturbed_loss first rest
    ∧ Evolutionary.loss_evaluations tr
      = (Evolutionary.arguments w, Evolutionary.variables w, unperturbed_loss)
        :: ((λ s, (Evolutionary.arguments w, Evolutionary.perturbed s,
                   Evolutionary.perturbed_loss s)) <$> first :: rest)
    ∧ Evolutionary.perturbation_sets tr = Evolutionary.drawn <$> first :: rest
    ∧ Evolutionary.applied_deltas tr
      = (Evolutionary.applied <$> first :: rest)
        ++ [zip_with tensor_sub deltas
              (Evolutionary.drawn (Evolutionary.last_sample first rest))]
    ∧ Evolutionary.variable_states tr
      = (Evolutionary.perturbed <$> first :: rest) ++ [Evolutionary.variables w']
    ∧ Evolutionary.variables w'
      = assign_add (Evolutionary.perturbed (Evolutionary.last_sample first rest))
          (zip_with tensor_sub deltas
             (Evolutionary.drawn (Evolutionary.last_sample first rest)))
    ∧ Evolutionary.arguments w' = Evolutionary.arguments w.
Proof.
  intros (l0 & first & rest & Hl0 & Hhist & Hlen & Hdeltas & -> & Hvars & Hargs)%tf_step_inv.
  exists l0, first, rest.
  destruct (history_events (Evolutionary.arguments w) (first :: rest)
    [Evolutionary.ApplyStep
       (zip_with tensor_sub deltas
          (Evolutionary.drawn (Evolutionary.last_sample first rest)))
       (Evolutionary.variables w')]) as (E1 & E2 & E3 & E4).
  split_and!; try done.
  - unfold Evolutionary.loss_evaluations in *. cbn [omap list_omap].
    rewrite E1. cbn [omap list_omap]. by rewrite app_nil_r.
  - unfold Evolutionary.perturbation_sets in *. cbn [omap list_omap].
    rewrite E2. cbn [omap list_omap]. by rewrite app_nil_r.
Qed.

(** C9. With [num_samples = m], a step that returns has evaluated
    [fn_loss] [m + 1] times: first on the variables as they were, which
    gives the unperturbed loss, then once per sample on the variables
    that the application of that sample left; the sum of the samples
    compares every one of these losses with that one unperturbed loss. *)
Theorem loss_evaluated_once_per_sample self (w : Evolutionary.world (G:=G)) deltas w' tr :
  0 < Evolutionary.num_samples self →
  Evolutionary.tf_step standard_normal fn_loss self w = Ok (deltas, w', tr) →
  ∃ unperturbed_loss first rest,
    length (first :: rest) = Z.to_nat (Evolutionary.num_samples self)
    ∧ length (Evolutionary.loss_evaluations tr)
      = S (Z.to_nat (Evolutionary.num_samples self))
    ∧ Evolutionary.loss_evaluations tr
      = (Evolutionary.arguments w, Evolutionary.variables w, unperturbed_loss)
        :: ((λ s, (Evolutionary.arguments w, Evolutionary.perturbed s,
                   Evolutionary.perturbed_loss s)) <$> first :: rest)
    ∧ fn_loss (Evolutionary.arguments w) (Evolutionary.variables w) = Ok unperturbed_loss
    ∧ Forall (λ s, fn_loss (Evolutionary.arguments w) (Evolutionary.perturbed s)
                   = Ok (Evolutionary.perturbed_loss s)) (first :: rest)
    ∧ Evolutionary.perturbation_sets tr = Evolutionary.drawn <$> first :: rest
    ∧ Evolutionary.variable_states tr
      = (Evolutionary.perturbed <$> first :: rest) ++ [Evolutionary.variables w']
    ∧ deltas = (λ delta, tensor_div_int delta (Evolutionary.num_samples self))
               <$> Evolutionary.deltas_sum_of unperturbed_loss first rest.
Proof.
  intros Hpos (l0 & first & rest & Hl0 & Hhist & Hlen & Hdeltas & Hlosses & Hps & _
               & Hstates & _)%tf_step_trace.
  exists l0, first, rest.
  assert (length (first :: rest) = Z.to_nat (Evolutionary.num_samples self)) as Hm.
  { simpl. rewrite Hlen. unfold range. lia. }
  split_and!; try done.
  - rewrite Hlosses. cbn [length]. by rewrite length_fmap, Hm.
  - destruct Hhist as (_ & _ & _ & Hfirst & Hrest).
    constructor; [done|]. by eapply consecutive_losses.
Qed.

Lemma steps_only (t : list (@MultiStep.event R Val)) :
  Forall MultiStep.is_step t → MultiStep.assignments t = [] ∧ MultiStep.references t = [].
Proof.
  induction 1 as [|[] t Hs _ [IH1 IH2]]; try done.
Qed.

(** C8. A step of the evolutionary optimizer that returns leaves the
    caller's dict as it was, and has evaluated every loss on that same
    dict. A step of the multi-step optimizer that returns has assigned
    into the dict once, before the first inner step: the entry
    ['reference'] now holds the reference and every other entry is as
    it was; the inner steps are handed that dict, and where the inner
    optimizer leaves it alone it is what the caller finds. *)
Theorem arguments_frame :
  (∀ self (w : Evolutionary.world (G:=G)) deltas w' tr,
     Evolutionary.tf_step standard_normal fn_loss self w = Ok (deltas, w', tr) →
     Evolutionary.arguments w' = Evolutionary.arguments w
     ∧ Forall (λ e, e.1.1 = Evolutionary.arguments w) (Evolutionary.loss_evaluations tr))
  ∧ (∀ self time kwargs fn_reference w deltas w' tr,
       MultiStep.tf_step optimizer_step self time kwargs fn_reference w
         = Ok (deltas, w', tr) →
       ∃ r steps,
         tr = MultiStep.Reference r :: MultiStep.SetItem "reference" r :: steps
         ∧ Forall MultiStep.is_step steps
         ∧ MultiStep.assignments tr = [("reference", r)]
         ∧ head (MultiStep.step_arguments tr)
           = Some (<["reference" := r]> (MultiStep.arguments w))
         ∧ <["reference" := r]> (MultiStep.arguments w) !! "reference" = Some r
         ∧ (∀ key, key ≠ "reference" →
              <["reference" := r]> (MultiStep.arguments w) !! key
              = MultiStep.arguments w !! key)
         ∧ (MultiStep.keeps_arguments optimizer_step time kwargs →
            MultiStep.arguments w' = <["reference" := r]> (MultiStep.arguments w)
            ∧ Forall (λ a, a = <["reference" := r]> (MultiStep.arguments w))
                (MultiStep.step_arguments tr))).
Proof.
  split.
  - intros self w deltas w' tr
      (l0 & first & rest & _ & _ & _ & _ & -> & _ & _ & _ & _ & Hargs)%tf_step_trace.
    split; [done|]. constructor; [done|]. by apply Forall_fmap, Forall_true.
  - intros self time kwargs fn_reference w deltas w' tr
      (f & r & steps & _ & _ & -> & Hsteps & _ & Hhead & Hkeep)%tf_step_events.
    exists r, steps. destruct (steps_only steps Hsteps) as [Hassign _].
    split_and!; try done.
    + unfold MultiStep.assignments in *. cbn [omap list_omap]. by rewrite Hassign.
    + apply lookup_insert_eq.
    + intros key Hkey. by apply lookup_insert_ne.
    + intros Hk. destruct (Hkeep Hk) as [Hw' Hall]. split; [done|].
      change (MultiStep.step_arguments
                (MultiStep.Reference r :: MultiStep.SetItem "reference" r :: steps))
        with (MultiStep.step_arguments steps).
      rewrite Hall. apply Forall_forall. by intros a ->%elem_of_replicate_inv.
Qed.
End Strategies.

(** ** The path of the variables *)

Section PathClaims.
Context {R : Type} `{Scalar R} {Val G : Type}.
Variable standard_normal : G → R * G.
Variable fn_loss : gmap string Val → list (Tensor R) → Res R.
Local Abbreviation world := (@Evolutionary.world R Val G).
Local Abbreviation tf_step := (Evolutionary.tf_step standard_normal fn_loss).

Lemma consecutive_apply_all args vars previous ss final :
  Evolutionary.consecutive fn_loss args vars previous ss →
  (Evolutionary.perturbed <$> ss)
    ++ [assign_add (default vars (last (Evolutionary.perturbed <$> ss))) final]
  = Evolutionary.apply_all vars ((Evolutionary.applied <$> ss) ++ [final]).
Proof.
  revert vars previous. induction ss as [|s ss IH]; intros vars previous; [done|].
  intros (_ & _ & Hpert & _ & Hrest).
  rewrite !fmap_cons, last_cons. cbn [app Evolutionary.apply_all].
  rewrite <- Hpert. f_equal. rewrite <- (IH _ _ Hrest).
  by destruct (last (Evolutionary.perturbed <$> ss)).
Qed.

(** C3 (amended). With [num_samples = m], a step that returns has applied
    [m + 1] deltas: the first perturbation, then for each further sample
    its perturbation minus the one before, and last the returned deltas
    minus the last perturbation. The variables are after each
    application what they were before it plus what was applied, and at
    the return they are in the last of these states. Where adding [b]
    and then [c - b] is adding [c], as in exact arithmetic, the states
    are the original variables plus each perturbation in turn, and at
    the return the original variables plus the returned deltas. *)
Theorem variables_trace_the_path self (w : world) deltas w' tr :
  (0 < Evolutionary.num_samples self)%Z →
  tf_step self w = Ok (deltas, w', tr) →
  ∃ first rest,
    Evolutionary.perturbation_sets tr = first :: rest
    ∧ length (first :: rest) = Z.to_nat (Evolutionary.num_samples self)
    ∧ Evolutionary.applied_deltas tr
      = first :: zip_with (zip_with tensor_sub) (rest ++ [deltas]) (first :: rest)
    ∧ Evolutionary.variable_states tr
      = Evolutionary.apply_all (Evolutionary.variables w) (Evolutionary.applied_deltas tr)
    ∧ last (Evolutionary.variable_states tr) = Some (Evolutionary.variables w')
    ∧ ((∀ a b c : R, s_add (s_add a b) (s_sub c b) = s_add a c) →
       Evolutionary.variable_states tr
       = (assign_add (Evolutionary.variables w) <$> first :: rest)
         ++ [assign_add (Evolutionary.variables w) deltas]
       ∧ Evolutionary.variables w' = assign_add (Evolutionary.variables w) deltas).
Proof.
  intros Hpos Hstep. pose proof (tf_step_shapes _ _ _ _ _ _ _ Hstep) as Hshape.
  apply tf_step_trace in Hstep
    as (l0 & s1 & ss & _ & Hhist & Hlen & _ & _ & Hps & Happlied & Hstates & Hvars & _).
  exists (Evolutionary.drawn s1), (Evolutionary.drawn <$> ss).
  pose proof (history_shapes fn_loss _ _ _ Hhist) as Hshapes.
  assert (Evolutionary.perturbed (Evolutionary.last_sample s1 ss)
          = default (Evolutionary.perturbed s1) (last (Evolutionary.perturbed <$> ss)))
    as Hlast.
  { unfold Evolutionary.last_sample. rewrite fmap_last. by destruct (last ss). }
  split_and!; try done.
  - cbn [length]. rewrite length_fmap, Hlen. unfold range. lia.
  - rewrite Happlied. destruct Hhist as (_ & Happ1 & _ & _ & Hcons).
    cbn [fmap list_fmap]. rewrite Happ1. cbn [app]. f_equal.
    rewrite zip_with_snoc by done.
    rewrite (consecutive_applied fn_loss _ _ _ _ Hcons).
    by rewrite drawn_last_sample.
  - rewrite Hstates, Happlied, Hvars, Hlast.
    destruct Hhist as (_ & Happ1 & Hpert1 & _ & Hcons).
    rewrite !fmap_cons. cbn [app Evolutionary.apply_all].
    rewrite Happ1, <- Hpert1. f_equal.
    by eapply consecutive_apply_all.
  - rewrite Hstates. apply last_snoc.
  - intros cancel.
    pose proof (history_perturbed fn_loss cancel _ _ _ Hhist) as Hpert.
    assert (Evolutionary.variables w' = assign_add (Evolutionary.variables w) deltas)
      as Hend.
    { rewrite Hvars.
      pose proof (last_sample_elem_of s1 ss) as Hin.
      rewrite Forall_forall in Hpert, Hshapes.
      rewrite (Hpert _ Hin). apply assign_add_sub; [done| |done].
      by apply Hshapes. }
    split; [|done].
    rewrite Hstates, Hend. f_equal.
    change (Evolutionary.drawn s1 :: (Evolutionary.drawn <$> ss))
      with (Evolutionary.drawn <$> s1 :: ss).
    rewrite <- list_fmap_compose. by apply Forall_fmap_ext.
Qed.
End PathClaims.

(** ** The average of the samples *)

Section AverageClaims.
Context {R : Type} `{Scalar R} {Val G : Type}.
Variable standard_normal : G → R * G.
Variable fn_loss : gmap string Val → list (Tensor R) → Res R.
Local Abbreviation world := (@Evolutionary.world R Val G).
Local Abbreviation tf_step := (Evolutionary.tf_step standard_normal fn_loss).



End AverageClaims.

(** ** The sign of a sample *)

Section SignFacts.
Local Open Scope Qc_scope.

Lemma sign_cases (x : Qc) : s_sign x = 1 ∨ s_sign x = -1 ∨ s_sign x = 0.
Proof. cbn. destruct (x ?= 0); auto. Qed.

Lemma sign_decreased (l0 l : Qc) : l < l0 → s_sign (s_sub l0 l) = 1.
Proof.
  intros Hlt. cbn.
  assert ((l0 - l ?= 0) = Gt) as ->; [|done].
  apply Qcgt_alt. by apply Qclt_minus_iff in Hlt.
Qed.

Lemma sign_increased (l0 l : Qc) : l0 < l → s_sign (s_sub l0 l) = -1.
Proof.
  intros Hlt. cbn.
  assert ((l0 - l ?= 0) = Lt) as ->; [|done].
  apply Qclt_alt. apply (Qcplus_lt_mono_r _ _ l).
  by replace (l0 - l + l) with l0 by ring; rewrite Qcplus_0_l.
Qed.

Lemma sign_unchanged (l0 : Qc) : s_sign (s_sub l0 l0) = 0.
Proof.
  cbn. assert ((l0 - l0 ?= 0) = Eq) as ->; [|done].
  apply Qceq_alt. ring.
Qed.

Lemma tensor_scale_1 (t : Tensor Qc) : tensor_scale 1 t = t.
Proof.
  unfold tensor_scale. cbn. rewrite <- (list_fmap_id t) at 2.
  apply list_fmap_ext. intros _ x _. simpl. ring.
Qed.

Lemma tensor_scale_opp (t : Tensor Qc) : tensor_scale (-1) t = Qcopp <$> t.
Proof.
  unfold tensor_scale. cbn. apply list_fmap_ext. intros _ x _. ring.
Qed.

Lemma tensor_scale_0 (t : Tensor Qc) : tensor_scale 0 t = (λ _, 0) <$> t.
Proof.
  unfold tensor_scale. cbn. apply list_fmap_ext. intros _ x _. ring.
Qed.

(** The contribution of a sample is its perturbation, kept, reversed or
    dropped by what it did to the loss. *)
Lemma contribution_cases (l0 l : Qc) (ps : list (Tensor Qc)) :
  (l < l0 → Evolutionary.contribution l0 l ps = ps)
  ∧ (l0 < l → Evolutionary.contribution l0 l ps = (λ p : Tensor Qc, Qcopp <$> p) <$> ps)
  ∧ (l = l0 →
     Evolutionary.contribution l0 l ps = (λ p : Tensor Qc, (λ _, 0) <$> p) <$> ps).
Proof.
  unfold Evolutionary.contribution. split_and!.
  - intros ->%sign_decreased. rewrite <- (list_fmap_id ps) at 2.
    apply list_fmap_ext. intros _ p _. apply tensor_scale_1.
  - intros ->%sign_increased.
    apply list_fmap_ext. intros _ p _. apply tensor_scale_opp.
  - intros ->. rewrite sign_unchanged.
    apply list_fmap_ext. intros _ p _. apply tensor_scale_0.
Qed.
End SignFacts.

(** ** The evolutionary step in exact arithmetic *)

Section ExactClaims.
Context {Val G : Type}.
Variable standard_normal : G → Qc * G.
Variable fn_loss : gmap string Val → list (Tensor Qc) → Res Qc.
Local Abbreviation world := (@Evolutionary.world Qc Val G).
Local Abbreviation tf_step := (Evolutionary.tf_step standard_normal fn_loss).
Local Open Scope Qc_scope.

(** C4. In the first sample and in every turn of either loop, what is
    added into [deltas_sum] is [direction * perturbation] for each
    variable, with [direction = sign(unperturbed_loss - perturbed_loss)]
    and the perturbed loss that of the variables the sample left: the
    perturbation itself where the loss strictly decreased, its opposite
    where it strictly increased, zero where the two losses are equal. *)
Theorem sample_contribution self :
  (∀ (w : world) l0 deltas_sum ps w' tr,
     Evolutionary.first_sample standard_normal fn_loss self w
       = Ok ((l0, deltas_sum, ps), w', tr) →
     ∃ l, fn_loss (Evolutionary.arguments w) (Evolutionary.variables w') = Ok l
          ∧ deltas_sum = Evolutionary.contribution l0 l ps)
  ∧ (∀ l0 deltas_sum previous (w : world) deltas_sum' ps w' tr,
       Evolutionary.body standard_normal fn_loss self l0 (deltas_sum, previous) w
         = Ok ((deltas_sum', ps), w', tr) →
       ∃ l, fn_loss (Evolutionary.arguments w) (Evolutionary.variables w') = Ok l
            ∧ deltas_sum'
              = zip_with tensor_add deltas_sum (Evolutionary.contribution l0 l ps))
  ∧ (∀ l0 deltas_sum ps0 previous (w : world) deltas_sum' ps previous' w' tr,
       Evolutionary.unrolled_turn standard_normal fn_loss self l0
         (deltas_sum, ps0, previous) w
         = Ok ((deltas_sum', ps, previous'), w', tr) →
       ∃ l, fn_loss (Evolutionary.arguments w) (Evolutionary.variables w') = Ok l
            ∧ deltas_sum'
              = zip_with tensor_add deltas_sum (Evolutionary.contribution l0 l ps))
  ∧ (∀ l0 l ps,
       (l < l0 → Evolutionary.contribution l0 l ps = ps)
       ∧ (l0 < l →
          Evolutionary.contribution l0 l ps = (λ p : Tensor Qc, Qcopp <$> p) <$> ps)
       ∧ (l = l0 →
          Evolutionary.contribution l0 l ps = (λ p : Tensor Qc, (λ _, 0) <$> p) <$> ps)).
Proof.
  assert (Hbody : ∀ l0 deltas_sum previous (w : world) deltas_sum' ps w' tr,
    Evolutionary.body standard_normal fn_loss self l0 (deltas_sum, previous) w
      = Ok ((deltas_sum', ps), w', tr) →
    ∃ l, fn_loss (Evolutionary.arguments w) (Evolutionary.variables w') = Ok l
         ∧ deltas_sum'
           = zip_with tensor_add deltas_sum (Evolutionary.contribution l0 l ps)).
  { intros l0 ds previous w ds' ps w' tr
      (s & <- & (_ & _ & _ & Hl & _) & _ & -> & -> & _)%body_inv.
    by exists (Evolutionary.perturbed_loss s). }
  split_and!.
  - intros w l0 ds ps w' tr
      (s & _ & <- & (_ & _ & _ & Hl & _) & _ & -> & -> & _)%first_sample_inv.
    by exists (Evolutionary.perturbed_loss s).
  - exact Hbody.
  - intros l0 ds ps0 previous w ds' ps previous' w' tr.
    rewrite unrolled_turn_body.
    intros ([ds1 ps1] & w1 & t1 & t2 & Hb & Hret & ->)%bind_ok_inv.
    unfold ret in Hret. injection Hret as <- <- <- <-. by eapply Hbody.
  - apply contribution_cases.
Qed.

(** C10. In a step that returns, every sample has one direction, the
    sign of one comparison: of the unperturbed loss with the loss of the
    variables the sample left, both as [fn_loss] returned them. It is 1
    where the loss fell, -1 where it rose and 0 where it stayed, and what
    the sample adds to [deltas_sum] is, for every variable and every
    entry alike, that direction times the entry of the perturbation. *)
Theorem one_direction_per_sample self (w : world) deltas w' tr :
  tf_step self w = Ok (deltas, w', tr) →
  ∃ l0 first rest,
    fn_loss (Evolutionary.arguments w) (Evolutionary.variables w) = Ok l0
    ∧ deltas = (λ delta, tensor_div_int delta (Evolutionary.num_samples self))
               <$> Evolutionary.deltas_sum_of l0 first rest
    ∧ Evolutionary.perturbation_sets tr = Evolutionary.drawn <$> first :: rest
    ∧ Evolutionary.loss_evaluations tr
      = (Evolutionary.arguments w, Evolutionary.variables w, l0)
        :: ((λ s, (Evolutionary.arguments w, Evolutionary.perturbed s,
                   Evolutionary.perturbed_loss s)) <$> first :: rest)
    ∧ Forall (λ s,
        fn_loss (Evolutionary.arguments w) (Evolutionary.perturbed s)
        = Ok (Evolutionary.perturbed_loss s)
        ∧ ∃ direction : Qc,
            ((Evolutionary.perturbed_loss s < l0 ∧ direction = 1)
             ∨ (l0 < Evolutionary.perturbed_loss s ∧ direction = -1)
             ∨ (Evolutionary.perturbed_loss s = l0 ∧ direction = 0))
            ∧ ∀ i p, Evolutionary.drawn s !! i = Some p →
                Evolutionary.contribution l0 (Evolutionary.perturbed_loss s)
                  (Evolutionary.drawn s) !! i
                = Some (Qcmult direction <$> p))
        (first :: rest).
Proof.
  intros (l0 & first & rest & Hl0 & Hhist & _ & Hd & Hlosses & Hps & _)%tf_step_trace.
  exists l0, first, rest. split_and!; try done.
  destruct Hhist as (_ & _ & _ & Hfirst & Hcons).
  pose proof (consecutive_losses fn_loss _ _ _ _ Hcons) as Hrest.
  assert (Forall (λ s, fn_loss (Evolutionary.arguments w) (Evolutionary.perturbed s)
                       = Ok (Evolutionary.perturbed_loss s)) (first :: rest)) as Hall
    by (by constructor).
  eapply Forall_impl; [exact Hall|]. intros s Hs. split; [exact Hs|].
  exists (s_sign (s_sub l0 (Evolutionary.perturbed_loss s))). split.
  - destruct (Qclt_le_dec (Evolutionary.perturbed_loss s) l0) as [Hlt|Hle].
    + left. split; [done|]. by apply sign_decreased.
    + apply Qcle_lt_or_eq in Hle as [Hlt|Heq].
      * right; left. split; [done|]. by apply sign_increased.
      * right; right. split; [done|]. rewrite <- Heq. apply sign_unchanged.
  - intros i p Hp. unfold Evolutionary.contribution.
    by rewrite list_lookup_fmap, Hp.
Qed.
Lemma zip_with_tensor_add_scaled (c : Qc) (ps : list (Tensor Qc)) :
  zip_with tensor_add ((λ p : Tensor Qc, Qcmult c <$> p) <$> ps) ps
  = (λ p : Tensor Qc, Qcmult (c + 1) <$> p) <$> ps.
Proof.
  induction ps as [|p ps IH]; [done|]. cbn [fmap list_fmap zip_with].
  f_equal; [|exact IH]. unfold tensor_add. clear IH.
  induction p as [|x p IH]; [done|]. cbn. f_equal; [ring|exact IH].
Qed.

(** The sum of [k] samples that all kept the same perturbation is [k]
    times that perturbation. *)
Lemma deltas_sum_steady l0 (ps : list (Tensor Qc)) first rest :
  Forall (λ s, Evolutionary.drawn s = ps ∧ Evolutionary.perturbed_loss s < l0)
    (first :: rest) →
  Evolutionary.deltas_sum_of l0 first rest
  = (λ p : Tensor Qc, Qcmult (Qc_of_Z (Z.of_nat (S (length rest)))) <$> p) <$> ps.
Proof.
  intros [[Hps Hl] Hrest]%Forall_cons. unfold Evolutionary.deltas_sum_of.
  destruct (contribution_cases l0 (Evolutionary.perturbed_loss first) ps) as [Hkeep _].
  rewrite Hps, (Hkeep Hl).
  assert (Hacc : ps = (λ p : Tensor Qc, Qcmult (Qc_of_Z (Z.of_nat 1)) <$> p) <$> ps).
  { rewrite <- (list_fmap_id ps) at 1. apply list_fmap_ext. intros _ p _.
    rewrite <- (list_fmap_id p) at 1. apply list_fmap_ext. intros _ x _.
    change (Qc_of_Z (Z.of_nat 1)) with (Qc_of_Z 1). rewrite Z2Qc_inj_1.
    simpl. ring. }
  rewrite Hacc at 1. clear Hacc Hkeep Hps Hl.
  change (S (length rest)) with (1 + length rest)%nat. generalize 1%nat.
  induction Hrest as [|s rest [Hps Hl] Hrest IH]; intros n.
  - cbn [foldl length]. by rewrite Nat.add_0_r.
  - cbn [foldl length]. unfold Evolutionary.add_contribution at 2.
    destruct (contribution_cases l0 (Evolutionary.perturbed_loss s) ps) as [Hkeep _].
    rewrite Hps, (Hkeep Hl), zip_with_tensor_add_scaled.
    replace (Qc_of_Z (Z.of_nat n) + 1) with (Qc_of_Z (Z.of_nat (S n)))
      by (rewrite Nat2Z.inj_succ, <- Z.add_1_r, Z2Qc_inj_add, Z2Qc_inj_1; done).
    rewrite (IH (S n)). by replace (S n + length rest)%nat with (n + S (length rest))%nat by lia.
Qed.

(** Without rounding, the average of equal perturbations that were all
    kept is the perturbation itself. *)
Lemma equal_perturbations_average_exactly self (w : world) deltas w' tr :
  tf_step self w = Ok (deltas, w', tr) →
  (∃ deltas_sum ps w1 t1,
     Evolutionary.samples standard_normal fn_loss self w = Ok ((deltas_sum, ps), w1, t1)
     ∧ deltas = (λ delta, tensor_div_int delta (Evolutionary.num_samples self))
                <$> deltas_sum)
  ∧ ((0 < Evolutionary.num_samples self)%Z →
     ∀ p a v l0 others,
       Evolutionary.loss_evaluations tr = (a, v, l0) :: others →
       Forall (λ e, e.2 < l0) others →
       Forall (λ ps, ps = p) (Evolutionary.perturbation_sets tr) →
       deltas = p).
Proof.
  intros Hstep. split.
  - unfold Evolutionary.tf_step in Hstep.
    apply bind_ok_inv in Hstep as ([ds ps] & w1 & t1 & t2 & Hsamples & Hfinish & ->).
    exists ds, ps, w1, t1. split; [done|].
    unfold Evolutionary.finish in Hfinish.
    apply bind_ok_inv in Hfinish as ([] & w2 & t3 & t4 & _ & Hret & _).
    unfold ret in Hret. injection Hret as <- _ _.
    apply (list_fmap_id (A:=Tensor Qc)).
  - intros Hpos p a v l0 others Hlosses Hbelow Hsame.
    apply tf_step_trace in Hstep
      as (l0' & first & rest & _ & _ & Hlen & -> & Hlosses' & Hps & _).
    assert (others = (λ s, (Evolutionary.arguments w, Evolutionary.perturbed s,
                            Evolutionary.perturbed_loss s)) <$> first :: rest
            ∧ l0 = l0') as [-> ->].
    { rewrite Hlosses' in Hlosses. by injection Hlosses. }
    rewrite Hps in Hsame.
    rewrite (deltas_sum_steady l0' p first rest).
    + rewrite <- list_fmap_compose. rewrite <- (list_fmap_id p) at 2.
      apply list_fmap_ext. intros _ t _. unfold tensor_div_int. simpl.
      rewrite <- list_fmap_compose. rewrite <- (list_fmap_id t) at 2.
      apply list_fmap_ext. intros _ x _. simpl.
      replace (Z.of_nat (S (length rest))) with (Evolutionary.num_samples self)
        by (rewrite Hlen; unfold range; lia).
      assert (Qc_of_Z (Evolutionary.num_samples self) ≠ 0) as Hne.
      { rewrite <- Z2Qc_inj_0. intros Heq%Z2Qc_inj. lia. }
      unfold Qcdiv. rewrite (Qcmult_comm (Qc_of_Z _) x), <- Qcmult_assoc.
      by rewrite Qcmult_inv_r, Qcmult_1_r.
    + apply Forall_fmap in Hbelow. apply Forall_fmap in Hsame.
      apply Forall_forall. intros s Hs.
      rewrite Forall_forall in Hbelow. rewrite Forall_forall in Hsame.
      split; [by apply Hsame|by apply (Hbelow s)].
Qed.
End ExactClaims.

(** ** Construction *)

Section Construction.
Context {R : Type} `{Scalar R} {Val Time Kwargs Inner G : Type}.
Variable Optimizer_init : PyVal R → Res unit.
Variable MetaOptimizer_init : PyVal R → PyVal R → Res unit.
Variable optimizer_step :
  Time → Kwargs → @MultiStep.world R Val Inner
  → Res (list (Tensor R) * @MultiStep.world R Val Inner).
Variable standard_normal : G → R * G.
Variable fn_loss : gmap string Val → list (Tensor R) → Res R.

Lemma evolutionary_init_accepted name learning_rate num_samples unroll_loop :
  Optimizer_init name = Ok tt →
  Evolutionary.valid learning_rate num_samples unroll_loop →
  Evolutionary.__init__ Optimizer_init name learning_rate num_samples unroll_loop
  = Ok (Evolutionary.Instance (float_value learning_rate) (int_value num_samples)
          (bool_value unroll_loop))
  ∧ 0 < int_value num_samples.
Proof.
  intros Hbase ((x & -> & Hx) & Hn & (b & ->)).
  unfold Evolutionary.__init__. rewrite Hbase. cbn. rewrite Hx. cbn.
  destruct Hn as [(n & -> & Hn)| ->]; cbn.
  - apply Z.ltb_lt in Hn as Hn'. rewrite Hn'. cbn. done.
  - done.
Qed.

Lemma evolutionary_init_rejected name learning_rate num_samples unroll_loop :
  Optimizer_init name = Ok tt →
  ¬ Evolutionary.valid learning_rate num_samples unroll_loop →
  Evolutionary.__init__ Optimizer_init name learning_rate num_samples unroll_loop
  = Raise AssertionError.
Proof.
  intros Hbase Hno. unfold Evolutionary.__init__. rewrite Hbase. cbn.
  destruct learning_rate as [| | |x|]; try done. cbn.
  destruct (s_gt x (s_of_int 0)) eqn:Hx; [|done]. cbn.
  assert (∀ lr : PyVal R, lr = PyFloat x →
          ∃ y, lr = PyFloat y ∧ s_gt y (s_of_int 0) = true) as Hlr
    by (intros lr ->; by exists x).
  destruct num_samples as [|[]|n| |]; try done; cbn.
  - destruct unroll_loop as [|b| | |]; try done.
    exfalso. apply Hno. split_and!; [by apply Hlr|by right|by exists b].
  - destruct (0 <? n) eqn:Hn; [|done]. cbn.
    destruct unroll_loop as [|b| | |]; try done.
    exfalso. apply Hno. apply Z.ltb_lt in Hn.
    split_and!; [by apply Hlr|left; by exists n|by exists b].
Qed.

Lemma multi_step_init_accepted name optimizer num_steps unroll_loop :
  MetaOptimizer_init name optimizer = Ok tt →
  MultiStep.valid num_steps unroll_loop →
  MultiStep.__init__ MetaOptimizer_init name optimizer num_steps unroll_loop
  = Ok (MultiStep.Instance (int_value num_steps) (bool_value unroll_loop))
  ∧ 0 < int_value num_steps.
Proof.
  intros Hbase (Hn & (b & ->)).
  unfold MultiStep.__init__. rewrite Hbase. cbn.
  destruct Hn as [(n & -> & Hn)| ->]; cbn.
  - apply Z.ltb_lt in Hn as Hn'. rewrite Hn'. cbn. done.
  - done.
Qed.

Lemma multi_step_init_rejected name optimizer num_steps unroll_loop :
  MetaOptimizer_init name optimizer = Ok tt →
  ¬ MultiStep.valid num_steps unroll_loop →
  MultiStep.__init__ MetaOptimizer_init name optimizer num_steps unroll_loop
  = Raise AssertionError.
Proof.
  intros Hbase Hno. unfold MultiStep.__init__. rewrite Hbase. cbn.
  destruct num_steps as [|[]|n| |]; try done; cbn.
  - destruct unroll_loop as [|b| | |]; try done.
    exfalso. apply Hno. split; [by right|by exists b].
  - destruct (0 <? n) eqn:Hn; [|done]. cbn.
    destruct unroll_loop as [|b| | |]; try done.
    exfalso. apply Hno. apply Z.ltb_lt in Hn.
    split; [left; by exists n|by exists b].
Qed.
(** The step returns whenever the collaborators do. *)
Lemma multi_step_returns self time kwargs f w :
  (∀ a vs, ∃ r, f a vs = Ok r) →
  (∀ w0, ∃ deltas w1, optimizer_step time kwargs w0 = Ok (deltas, w1)) →
  ∃ deltas w' tr,
    MultiStep.tf_step optimizer_step self time kwargs (Some f) w = Ok (deltas, w', tr).
Proof.
  intros Hf Hstep. rewrite tf_step_for_range.
  unfold bind at 1. unfold MultiStep.call_reference.
  destruct (Hf (MultiStep.arguments w) (MultiStep.variables w)) as [r ->].
  unfold bind at 1. unfold MultiStep.setitem.
  unfold bind at 1. unfold MultiStep.step at 1. cbn [MultiStep.arguments].
  match goal with |- context [optimizer_step time kwargs ?w0] =>
    destruct (Hstep w0) as (d & w1 & ->) end.
  assert (Hloop : ∀ n deltas w0, ∃ res,
    for_range n (MultiStep.body optimizer_step time kwargs) deltas w0 = Ok res).
  { induction n as [|n IH]; intros deltas w0; [by eexists|].
    cbn [for_range]. unfold bind at 1.
    assert (∃ r, MultiStep.body optimizer_step time kwargs deltas w0 = Ok r) as Hb.
    { unfold MultiStep.body, bind, MultiStep.step, ret.
      destruct (Hstep w0) as (d' & w2 & ->). by eexists. }
    destruct Hb as [[[a w3] t3] ->].
    destruct (IH a w3) as [[[a' w4] t4] ->]. by eexists. }
  destruct (Hloop (range (MultiStep.num_steps self - 1)) d w1) as [[[a w3] t3] ->].
  by eexists _, _, _.
Qed.

(** C7. When the base constructor returns, each constructor returns for
    every valid configuration, an instance that holds the three settings
    as they were given, and raises [AssertionError] for every other
    configuration: a [learning_rate] that is not a float or is not above
    0, a [num_samples] or [num_steps] that is no int or is below 1, an
    [unroll_loop] that is not a bool. A step checks nothing of the
    configuration, and has the instance as a value it cannot change: it
    returns whenever the collaborators do. *)
Theorem constructors_check_configuration :
  (∀ name learning_rate num_samples unroll_loop,
     Optimizer_init name = Ok tt →
     (Evolutionary.valid learning_rate num_samples unroll_loop →
      Evolutionary.__init__ Optimizer_init name learning_rate num_samples unroll_loop
      = Ok (Evolutionary.Instance (float_value learning_rate) (int_value num_samples)
              (bool_value unroll_loop))
      ∧ 0 < int_value num_samples)
     ∧ (¬ Evolutionary.valid learning_rate num_samples unroll_loop →
        Evolutionary.__init__ Optimizer_init name learning_rate num_samples unroll_loop
        = Raise AssertionError))
  ∧ (∀ name optimizer num_steps unroll_loop,
       MetaOptimizer_init name optimizer = Ok tt →
       (MultiStep.valid num_steps unroll_loop →
        MultiStep.__init__ MetaOptimizer_init name optimizer num_steps unroll_loop
        = Ok (MultiStep.Instance (int_value num_steps) (bool_value unroll_loop))
        ∧ 0 < int_value num_steps)
       ∧ (¬ MultiStep.valid num_steps unroll_loop →
          MultiStep.__init__ MetaOptimizer_init name optimizer num_steps unroll_loop
          = Raise AssertionError))
  ∧ (∀ self (w : Evolutionary.world (G:=G)),
       (∀ a vs, ∃ l, fn_loss a vs = Ok l) →
       ∃ deltas w' tr,
         Evolutionary.tf_step standard_normal fn_loss self w = Ok (deltas, w', tr))
  ∧ (∀ self time kwargs f w,
       (∀ a vs, ∃ r, f a vs = Ok r) →
       (∀ w0, ∃ deltas w1, optimizer_step time kwargs w0 = Ok (deltas, w1)) →
       ∃ deltas w' tr,
         MultiStep.tf_step optimizer_step self time kwargs (Some f) w
         = Ok (deltas, w', tr)).
Proof.
  split_and!.
  - intros name lr ns ul Hbase. split.
    + by apply evolutionary_init_accepted.
    + by apply evolutionary_init_rejected.
  - intros name opt ns ul Hbase. split.
    + by apply multi_step_init_accepted.
    + by apply multi_step_init_rejected.
  - intros. by apply tf_step_returns.
  - intros. by apply multi_step_returns.
Qed.
End Construction.

(** ** The claims on the test doubles *)

Section Examples.
Import Fixture.
Local Open Scope Qc_scope.

Local Abbreviation evo_step := (Evolutionary.tf_step playback square_loss).
Local Abbreviation multi_step_step := (MultiStep.tf_step constant_step).

(** The scenario of the spec: a stub that returns 1 each time, three
    steps, gives the delta 3 and the variable at its value plus 3. *)
Example multi_step_constant_stub :
  match multi_step_step (multi_step false) tt tt (Some constant_reference) stepped_world with
  | Ok (deltas, w', _) =>
      Some (fmap (M:=list) this <$> deltas, fmap (M:=list) this <$> MultiStep.variables w')
  | Raise _ => None
  end = Some ([[3 # 1]], [[3 # 1]])%Q.
Proof. vm_compute. reflexivity. Qed.

(** The draws 1, 2, -1 against the loss [(x - 3)^2] from 0: the first
    two are kept and the third reversed, so the deltas are 4/3. *)
Example evolutionary_three_samples :
  match evo_step (evolutionary true) sampled_world with
  | Ok (deltas, w', _) =>
      Some (fmap (M:=list) this <$> deltas,
            fmap (M:=list) this <$> Evolutionary.variables w')
  | Raise _ => None
  end = Some ([[4 # 3]], [[4 # 3]])%Q.
Proof. vm_compute. reflexivity. Qed.

Lemma strategies_agree_witness :
  multi_step_step (multi_step true) tt tt (Some constant_reference) stepped_world
  = multi_step_step (multi_step false) tt tt (Some constant_reference) stepped_world
  ∧ evo_step (evolutionary true) sampled_world
    = evo_step (evolutionary false) sampled_world
  ∧ ∃ deltas w' tr,
      evo_step (evolutionary true) sampled_world = Ok (deltas, w', tr)
      ∧ shape <$> deltas = shape <$> Evolutionary.variables sampled_world.
Proof.
  destruct (strategies_agree (Time:=unit) (Kwargs:=unit)
              constant_step playback square_loss) as (HM & HE & HS).
  split_and!; [apply HM|apply HE|].
  eexists _, _, _. split; [vm_compute; reflexivity|].
  eapply (HS (evolutionary true) sampled_world). vm_compute. reflexivity.
Defined.


Lemma variables_trace_the_path_witness :
  (0 < Evolutionary.num_samples (evolutionary false))%Z
  ∧ ∃ deltas w' tr,
      evo_step (evolutionary false) sampled_world = Ok (deltas, w', tr)
      ∧ (∃ first rest,
           Evolutionary.perturbation_sets tr = first :: rest
           ∧ length (first :: rest) = 3%nat
           ∧ Evolutionary.applied_deltas tr
             = first :: zip_with (zip_with tensor_sub) (rest ++ [deltas]) (first :: rest)
           ∧ Evolutionary.variable_states tr
             = Evolutionary.apply_all (Evolutionary.variables sampled_world)
                 (Evolutionary.applied_deltas tr))
      ∧ Evolutionary.variables w'
        = assign_add (Evolutionary.variables sampled_world) deltas.
Proof.
  assert (0 < Evolutionary.num_samples (evolutionary false))%Z as Hpos by (simpl; lia).
  split; [exact Hpos|].
  eexists _, _, _.
  match goal with |- ?A ∧ _ => assert (HA : A) by (vm_compute; reflexivity) end.
  split; [exact HA|].
  destruct (variables_trace_the_path playback square_loss
              (evolutionary false) sampled_world _ _ _ Hpos HA)
    as (first & rest & Hps & Hlen & Happlied & Hstates & _ & Hexact).
  split.
  - exists first, rest. split_and!; done.
  - apply Hexact. intros a b c. cbn. ring.
Defined.

Lemma sample_contribution_witness :
  (∃ l0 deltas_sum ps w' tr,
     Evolutionary.first_sample playback square_loss (evolutionary false) sampled_world
     = Ok ((l0, deltas_sum, ps), w', tr)
     ∧ ∃ l, square_loss (Evolutionary.arguments sampled_world) (Evolutionary.variables w')
            = Ok l
            ∧ deltas_sum = Evolutionary.contribution l0 l ps)
  ∧ (qc 4 < qc 9
     ∧ Evolutionary.contribution (qc 9) (qc 4) [[qc 1]] = [[qc 1]])
  ∧ (qc 9 < qc 16
     ∧ Evolutionary.contribution (qc 9) (qc 16) [[qc 1]]
       = (λ p : Tensor Qc, Qcopp <$> p) <$> [[qc 1]])
  ∧ Evolutionary.contribution (qc 9) (qc 9) [[qc 1]]
    = (λ p : Tensor Qc, (λ _, 0) <$> p) <$> [[qc 1]].
Proof.
  destruct (sample_contribution playback square_loss (evolutionary false))
    as (Hfirst & _ & _ & Hcases).
  destruct (Hcases (qc 9) (qc 4) [[qc 1]]) as (Hkeep & _ & _).
  destruct (Hcases (qc 9) (qc 16) [[qc 1]]) as (_ & Hreverse & _).
  destruct (Hcases (qc 9) (qc 9) [[qc 1]]) as (_ & _ & Hdrop).
  assert (qc 4 < qc 9) as H49 by (vm_compute; reflexivity).
  assert (qc 9 < qc 16) as H916 by (vm_compute; reflexivity).
  split_and!; [|exact H49|exact (Hkeep H49)|exact H916|exact (Hreverse H916)
               |exact (Hdrop eq_refl)].
  eexists _, _, _, _, _. split; [vm_compute; reflexivity|].
  eapply (Hfirst sampled_world). vm_compute. reflexivity.
Defined.


Lemma constructors_check_configuration_witness :
  accept1 (PyStr "evolutionary") = Ok tt
  ∧ Evolutionary.valid (PyFloat (qc 1)) (PyInt 3) (PyBool false)
  ∧ Evolutionary.__init__ accept1 (PyStr "evolutionary") (PyFloat (qc 1)) (PyInt 3)
      (PyBool false)
    = Ok (evolutionary false)
  ∧ ¬ Evolutionary.valid (PyFloat (qc 1)) (PyInt 0) (PyBool false)
  ∧ Evolutionary.__init__ accept1 (PyStr "evolutionary") (PyFloat (qc 1)) (PyInt 0)
      (PyBool false)
    = Raise AssertionError
  ∧ MultiStep.valid (R:=Qc) (PyInt 3) (PyBool false)
  ∧ MultiStep.__init__ accept2 (PyStr "multi_step") PyNone (PyInt 3) (PyBool false)
    = Ok (multi_step false)
  ∧ MultiStep.valid (R:=Qc) (PyBool true) (PyBool true)
  ∧ MultiStep.__init__ accept2 (PyStr "multi_step") PyNone (PyBool true) (PyBool true)
    = Ok (MultiStep.Instance 1 true).
Proof.
  destruct (constructors_check_configuration (Val:=Z) (Time:=unit) (Kwargs:=unit)
              accept1 accept2 constant_step playback square_loss)
    as (HE & HM & _).
  assert (Evolutionary.valid (PyFloat (qc 1)) (PyInt 3) (PyBool false)) as Hok.
  { split_and!; [by exists (qc 1)|left; by exists 3%Z|by exists false]. }
  assert (¬ Evolutionary.valid (PyFloat (qc 1)) (PyInt 0) (PyBool false)) as Hno.
  { intros (_ & [(n & [= <-] & Hn)|[=]] & _). lia. }
  assert (MultiStep.valid (R:=Qc) (PyInt 3) (PyBool false)) as Hms.
  { split; [left; by exists 3%Z|by exists false]. }
  destruct (HE (PyStr "evolutionary") (PyFloat (qc 1)) (PyInt 3) (PyBool false) eq_refl)
    as [Hacc _].
  destruct (HE (PyStr "evolutionary") (PyFloat (qc 1)) (PyInt 0) (PyBool false) eq_refl)
    as [_ Hrej].
  destruct (HM (PyStr "multi_step") PyNone (PyInt 3) (PyBool false) eq_refl)
    as [Hmacc _].
  assert (MultiStep.valid (R:=Qc) (PyBool true) (PyBool true)) as Hbool.
  { split; [by right|by exists true]. }
  destruct (HM (PyStr "multi_step") PyNone (PyBool true) (PyBool true) eq_refl)
    as [Hbacc _].
  split_and!; [done|exact Hok|exact (proj1 (Hacc Hok))|exact Hno|exact (Hrej Hno)
               |exact Hms|exact (proj1 (Hmacc Hms))|exact Hbool
               |exact (proj1 (Hbacc Hbool))].
Defined.
Lemma loss_evaluated_once_per_sample_witness :
  (0 < Evolutionary.num_samples (evolutionary false))%Z
  ∧ ∃ deltas w' tr,
      evo_step (evolutionary false) sampled_world = Ok (deltas, w', tr)
      ∧ length (Evolutionary.loss_evaluations tr) = 4%nat
      ∧ ∃ unperturbed_loss first rest,
          Evolutionary.loss_evaluations tr
          = (Evolutionary.arguments sampled_world, Evolutionary.variables sampled_world,
             unperturbed_loss)
            :: ((λ s, (Evolutionary.arguments sampled_world, Evolutionary.perturbed s,
                       Evolutionary.perturbed_loss s)) <$> first :: rest)
          ∧ deltas = (λ delta, tensor_div_int delta 3)
                     <$> Evolutionary.deltas_sum_of unperturbed_loss first rest.
Proof.
  assert (0 < Evolutionary.num_samples (evolutionary false))%Z as Hpos by (simpl; lia).
  split; [exact Hpos|].
  eexists _, _, _.
  match goal with |- ?A ∧ _ => assert (HA : A) by (vm_compute; reflexivity) end.
  destruct (loss_evaluated_once_per_sample playback square_loss (evolutionary false)
              sampled_world _ _ _ Hpos HA)
    as (l0 & first & rest & _ & Hcount & Hlosses & _ & _ & _ & _ & Hdeltas).
  split_and!; [exact HA|exact Hcount|].
  exists l0, first, rest. split; [exact Hlosses|exact Hdeltas].
Defined.

Lemma one_direction_per_sample_witness :
  ∃ deltas w' tr,
    Evolutionary.tf_step playback distance_loss (evolutionary false) two_variable_world
    = Ok (deltas, w', tr)
    ∧ ∃ l0 first rest,
        distance_loss (Evolutionary.arguments two_variable_world)
          (Evolutionary.variables two_variable_world) = Ok l0
        ∧ Evolutionary.perturbation_sets tr = Evolutionary.drawn <$> first :: rest
        ∧ Forall (λ s,
            distance_loss (Evolutionary.arguments two_variable_world)
              (Evolutionary.perturbed s)
            = Ok (Evolutionary.perturbed_loss s)
            ∧ ∃ direction : Qc,
                ((Evolutionary.perturbed_loss s < l0 ∧ direction = 1)
                 ∨ (l0 < Evolutionary.perturbed_loss s ∧ direction = -1)
                 ∨ (Evolutionary.perturbed_loss s = l0 ∧ direction = 0))
                ∧ ∀ i p, Evolutionary.drawn s !! i = Some p →
                    Evolutionary.contribution l0 (Evolutionary.perturbed_loss s)
                      (Evolutionary.drawn s) !! i
                    = Some (Qcmult direction <$> p))
            (first :: rest).
Proof.
  eexists _, _, _.
  match goal with |- ?A ∧ _ => assert (HA : A) by (vm_compute; reflexivity) end.
  destruct (one_direction_per_sample playback distance_loss (evolutionary false)
              two_variable_world _ _ _ HA)
    as (l0 & first & rest & Hl0 & _ & Hps & _ & Hdir).
  split; [exact HA|]. exists l0, first, rest. split_and!; [exact Hl0|exact Hps|exact Hdir].
Defined.

Lemma arguments_frame_witness :
  (∃ deltas w' tr,
     evo_step (evolutionary false) sampled_world = Ok (deltas, w', tr)
     ∧ Evolutionary.arguments w' = Evolutionary.arguments sampled_world
     ∧ Forall (λ e, e.1.1 = Evolutionary.arguments sampled_world)
         (Evolutionary.loss_evaluations tr))
  ∧ MultiStep.keeps_arguments constant_step tt tt
  ∧ ∃ deltas w' tr,
      multi_step_step (multi_step false) tt tt (Some constant_reference) stepped_world
      = Ok (deltas, w', tr)
      ∧ ∃ r steps,
          tr = MultiStep.Reference r :: MultiStep.SetItem "reference" r :: steps
          ∧ MultiStep.assignments tr = [("reference", r)]
          ∧ MultiStep.arguments w'
            = <["reference" := r]> (MultiStep.arguments stepped_world).
Proof.
  destruct (arguments_frame (Time:=unit) (Kwargs:=unit)
              constant_step playback square_loss) as (HE & HM).
  assert (MultiStep.keeps_arguments constant_step tt tt) as Hkeep.
  { intros w deltas w'. unfold constant_step. by intros [= <- <-]. }
  split_and!; [|exact Hkeep|].
  - eexists _, _, _.
    match goal with |- ?A ∧ _ => assert (HA : A) by (vm_compute; reflexivity) end.
    split; [exact HA|]. exact (HE (evolutionary false) sampled_world _ _ _ HA).
  - eexists _, _, _.
    match goal with |- ?A ∧ _ => assert (HA : A) by (vm_compute; reflexivity) end.
    split; [exact HA|].
    destruct (HM (multi_step false) tt tt (Some constant_reference) stepped_world
                _ _ _ HA) as (r & steps & Htr & _ & Hassign & _ & _ & _ & Hfinal).
    exists r, steps. split_and!; [exact Htr|exact Hassign|exact (proj1 (Hfinal Hkeep))].
Defined.
End Examples.

(** ** Rounding *)

Section RoundingExamples.
Import FloatFixture.

(** C3, as the spec states it, fails on floats: one sample whose loss
    ties, drawn as 0.2 for a variable at 0.1, returns the delta 0 and
    leaves the variable at [(0.1 + 0.2) + (0 - 0.2)], which is not
    [0.1 + 0]. *)
Lemma rounding_moves_the_variables :
  ∃ deltas w' tr,
    Evolutionary.tf_step playback level_loss (evolutionary 1) tie_world
    = Ok (deltas, w', tr)
    ∧ Evolutionary.variables w'
      ≠ assign_add (Evolutionary.variables tie_world) deltas.
Proof.
  eexists _, _, _. split; [vm_compute; reflexivity|].
  match goal with
  | |- ?A ≠ ?B =>
      intros E; pose proof (f_equal (λ vs, Binary64.tensors_eqb vs B) E) as HE
  end.
  vm_compute in HE. discriminate.
Qed.


End RoundingExamples.

(** ** More on the multi-step optimizer *)

Section MultiStepMore.
Context {R : Type} `{Scalar R} {Val Time Kwargs Inner : Type}.
Local Abbreviation world := (@MultiStep.world R Val Inner).
Variable optimizer_step : Time → Kwargs → world → Res (list (Tensor R) * world).
Local Abbreviation tf_step := (MultiStep.tf_step optimizer_step).

Lemma bind_raise_inv {W E A B} (m : M W E A) (f : A → M W E B) w e :
  bind m f w = Raise e →
  m w = Raise e ∨ ∃ a w1 t1, m w = Ok (a, w1, t1) ∧ f a w1 = Raise e.
Proof.
  unfold bind. destruct (m w) as [[[a w1] t1]|e']; [|intros [= ->]; by left].
  destruct (f a w1) as [[[b w2] t2]|e'] eqn:Hf; [done|].
  intros [= ->]. right. by exists a, w1, t1.
Qed.

Lemma for_range_body_raise n time kwargs deltas w e :
  for_range n (MultiStep.body optimizer_step time kwargs) deltas w = Raise e →
  ∃ w0, optimizer_step time kwargs w0 = Raise e.
Proof.
  revert deltas w. induction n as [|n IH]; intros deltas w; [done|].
  cbn [for_range]. intros [Hbody|(a & w1 & t1 & _ & Hrest)]%bind_raise_inv.
  - unfold MultiStep.body, bind, MultiStep.step, ret in Hbody.
    destruct (optimizer_step time kwargs w) as [[d w1]|e'] eqn:Hstep; [done|].
    injection Hbody as ->. by exists w.
  - by eapply IH.
Qed.

(** X1. The multi-step optimizer raises nothing of its own but the
    [TypeError] of calling [None]: whatever else a step raises was raised,
    as it is, by [fn_reference] on the caller's arguments and variables or
    by a step of the inner optimizer. *)
Theorem multi_step_raises_what_it_is_given self time kwargs fn_reference w e :
  tf_step self time kwargs fn_reference w = Raise e →
  (fn_reference = None ∧ e = TypeError)
  ∨ (∃ f, fn_reference = Some f
          ∧ f (MultiStep.arguments w) (MultiStep.variables w) = Raise e)
  ∨ (∃ w0, optimizer_step time kwargs w0 = Raise e).
Proof.
  rewrite tf_step_for_range.
  intros [Href|(r & w1 & t1 & _ & Hrest)]%bind_raise_inv.
  - unfold MultiStep.call_reference in Href.
    destruct fn_reference as [f|]; [|injection Href as <-; by left].
    right; left. exists f. split; [done|].
    by destruct (f _ _) as [r|e'] eqn:Hf; [|injection Href as ->].
  - right; right.
    apply bind_raise_inv in Hrest as [Hset|([] & w2 & t2 & _ & Hrest)]; [done|].
    apply bind_raise_inv in Hrest as [Hstep|(d & w3 & t3 & _ & Hloop)].
    + unfold MultiStep.step in Hstep.
      destruct (optimizer_step time kwargs w2) as [[d w3]|e'] eqn:Hs; [done|].
      injection Hstep as ->. by exists w2.
    + by eapply for_range_body_raise.
Qed.

Lemma elementwise_sum_length (d : list (Tensor R)) rest :
  Forall (λ d', (length (MultiStep.elementwise_sum (d :: rest)) ≤ length d')%nat)
    (d :: rest)
  ∧ Exists (λ d', length d' = length (MultiStep.elementwise_sum (d :: rest))) (d :: rest).
Proof.
  unfold MultiStep.elementwise_sum.
  revert d. induction rest as [|d' rest IH]; intros d.
  - cbn [foldl]. split; [by repeat constructor|by constructor].
  - cbn [foldl]. destruct (IH (zip_with tensor_add d d')) as [Hall Hex].
    apply Forall_cons in Hall as [Hhd Hall].
    rewrite length_zip_with in Hhd.
    split.
    + repeat constructor; [lia|lia|done].
    + apply Exists_cons in Hex as [Hex|Hex].
      * rewrite length_zip_with in Hex.
        destruct (Nat.min_spec (length d) (length d')) as [[_ Hmin]|[_ Hmin]];
          rewrite Hmin in Hex.
        -- by apply Exists_cons_hd.
        -- apply Exists_cons_tl. by apply Exists_cons_hd.
      * by do 2 apply Exists_cons_tl.
Qed.

(** X2. In the unrolled loop [zip] cuts the sum to the shortest: the
    deltas a step returns are as many as the fewest deltas that one of
    its inner steps returned. *)
Theorem multi_step_deltas_cut_to_shortest self time kwargs fn_reference w deltas w' tr :
  MultiStep.unroll_loop self = true →
  tf_step self time kwargs fn_reference w = Ok (deltas, w', tr) →
  Forall (λ d, (length deltas ≤ length d)%nat) (MultiStep.step_deltas tr)
  ∧ Exists (λ d, length d = length deltas) (MultiStep.step_deltas tr).
Proof.
  intros _. rewrite tf_step_for_range.
  intros (r & w1 & t1 & t2 & Href & Hrest & ->)%bind_ok_inv.
  apply bind_ok_inv in Hrest as ([] & w2 & t3 & t4 & Hset & Hrest & ->).
  apply bind_ok_inv in Hrest as (d & w3 & t5 & t6 & Hstep & Hloop & ->).
  rewrite for_range_invoke_steps in Hloop.
  apply bind_ok_inv in Hloop as (ds & w4 & t7 & t8 & Hinv & Hret & ->).
  unfold ret in Hret. injection Hret as <- <- <-.
  apply invoke_steps_events in Hinv as (_ & _ & Hds & _).
  unfold MultiStep.call_reference in Href.
  destruct fn_reference as [f|]; [|done]. destruct (f _ _) as [r'|e]; [|done].
  injection Href as <- <- <-.
  unfold MultiStep.setitem in Hset. injection Hset as <- <-.
  unfold MultiStep.step in Hstep.
  destruct (optimizer_step time kwargs _) as [[d0 w0]|e]; [|done].
  injection Hstep as <- <- <-.
  assert (MultiStep.step_deltas
            ([MultiStep.Reference r'] ++ [MultiStep.SetItem "reference" r']
             ++ [MultiStep.Step (<["reference":=r']> (MultiStep.arguments w)) d0]
             ++ t7 ++ []) = d0 :: ds) as ->.
  { rewrite app_nil_r. cbn. by rewrite <- Hds. }
  apply (elementwise_sum_length d0 ds).
Qed.

(** X3. The dict is shared between calls: a second step on the same dict
    hands [fn_reference] the reference that the first step left in it,
    and then replaces it by the new one. *)
Theorem second_step_sees_first_reference
    self time kwargs f w deltas1 w1 tr1 deltas2 w2 tr2 :
  MultiStep.keeps_arguments optimizer_step time kwargs →
  tf_step self time kwargs (Some f) w = Ok (deltas1, w1, tr1) →
  tf_step self time kwargs (Some f) w1 = Ok (deltas2, w2, tr2) →
  ∃ r1 r2,
    f (MultiStep.arguments w) (MultiStep.variables w) = Ok r1
    ∧ f (<["reference" := r1]> (MultiStep.arguments w)) (MultiStep.variables w1) = Ok r2
    ∧ MultiStep.references (tr1 ++ tr2) = [r1; r2]
    ∧ MultiStep.arguments w2 = <["reference" := r2]> (MultiStep.arguments w).
Proof.
  intros Hkeep
    (f1 & r1 & steps1 & [= <-] & Hr1 & -> & Hsteps1 & _ & _ & Hargs1)%tf_step_events
    (f2 & r2 & steps2 & [= <-] & Hr2 & -> & Hsteps2 & _ & _ & Hargs2)%tf_step_events.
  destruct (Hargs1 Hkeep) as [Hw1 _]. destruct (Hargs2 Hkeep) as [Hw2 _].
  rewrite Hw1 in Hr2, Hw2. exists r1, r2. split_and!; try done.
  - unfold MultiStep.references. rewrite omap_app. cbn [omap list_omap].
    destruct (steps_only steps1 Hsteps1) as [_ Hno1].
    destruct (steps_only steps2 Hsteps2) as [_ Hno2].
    unfold MultiStep.references in Hno1, Hno2. by rewrite Hno1, Hno2.
  - by rewrite Hw2, insert_insert_eq.
Qed.
End MultiStepMore.

(** ** The multi-step optimizer and the variables *)

Section MultiStepApplies.
Context {R : Type} `{Scalar R} {Val Time Kwargs Inner : Type}.
Local Abbreviation world := (@MultiStep.world R Val Inner).
Variable optimizer_step : Time → Kwargs → world → Res (list (Tensor R) * world).

Lemma for_range_applies_in_turn n time kwargs deltas (w : world) deltas' w' tr :
  MultiStep.applies_its_deltas optimizer_step time kwargs →
  for_range n (MultiStep.body optimizer_step time kwargs) deltas w = Ok (deltas', w', tr) →
  MultiStep.variables w' = foldl assign_add (MultiStep.variables w) (MultiStep.step_deltas tr).
Proof.
  intros Happlies. revert deltas w tr.
  induction n as [|n IH]; intros deltas w tr.
  - cbn. unfold ret. by intros [= <- <- <-].
  - cbn [for_range].
    intros (ds1 & w1 & t1 & t2 & Hbody & Hrest & ->)%bind_ok_inv.
    unfold MultiStep.body in Hbody.
    apply bind_ok_inv in Hbody as (d & w2 & t3 & t4 & Hstep & Hret & ->).
    unfold ret in Hret. injection Hret as <- <- <-.
    unfold MultiStep.step in Hstep.
    destruct (optimizer_step time kwargs w) as [[d0 w0]|e] eqn:Hopt; [|done].
    injection Hstep as <- <- <-.
    apply Happlies in Hopt as [Hw0 _].
    rewrite (IH _ _ _ Hrest), Hw0.
    unfold MultiStep.step_deltas. rewrite !omap_app. by rewrite foldl_app.
Qed.

Lemma for_range_shapes n time kwargs sh deltas (w : world) deltas' w' tr :
  MultiStep.applies_its_deltas optimizer_step time kwargs →
  shape <$> MultiStep.variables w = sh →
  shape <$> deltas = sh →
  for_range n (MultiStep.body optimizer_step time kwargs) deltas w = Ok (deltas', w', tr) →
  shape <$> deltas' = sh.
Proof.
  intros Happlies. revert deltas w tr.
  induction n as [|n IH]; intros deltas w tr Hvars Hshape.
  - cbn. unfold ret. by intros [= <- <- <-].
  - cbn [for_range].
    intros (ds1 & w1 & t1 & t2 & Hbody & Hrest & ->)%bind_ok_inv.
    unfold MultiStep.body in Hbody.
    apply bind_ok_inv in Hbody as (d & w2 & t3 & t4 & Hstep & Hret & ->).
    unfold ret in Hret. injection Hret as <- <- <-.
    unfold MultiStep.step in Hstep.
    destruct (optimizer_step time kwargs w) as [[d0 w0]|e] eqn:Hopt; [|done].
    injection Hstep as <- <- <-.
    apply Happlies in Hopt as [Hw0 Hd0].
    eapply IH; [| |exact Hrest].
    + rewrite Hw0, shapes_assign_add; done.
    + rewrite shapes_zip_with_tensor_add; [done|congruence].
Qed.

Section Associative.
(** Sums do not depend on their grouping: true of exact arithmetic, not
    of rounded arithmetic. *)
Hypothesis assoc : ∀ a b c : R, s_add (s_add a b) c = s_add a (s_add b c).

Lemma tensor_add_assoc (o p q : Tensor R) :
  tensor_add (tensor_add o p) q = tensor_add o (tensor_add p q).
Proof using assoc.
  unfold tensor_add. revert p q.
  induction o as [|x o IH]; intros [|y p] [|z q]; try done.
  cbn. f_equal; [apply assoc|apply IH].
Qed.

Lemma assign_add_assoc (vars ps qs : list (Tensor R)) :
  length ps = length vars → length qs = length vars →
  assign_add (assign_add vars ps) qs = assign_add vars (zip_with tensor_add ps qs).
Proof using assoc.
  revert ps qs. induction vars as [|x o IH]; intros [|y p] [|z q]; try done.
  intros [= Hp] [= Hq]. cbn [assign_add zip_with]. f_equal.
  - apply tensor_add_assoc.
  - by apply IH.
Qed.

Lemma for_range_applies n time kwargs orig deltas (w : world) deltas' w' tr :
  MultiStep.applies_its_deltas optimizer_step time kwargs →
  MultiStep.variables w = assign_add orig deltas →
  shape <$> deltas = shape <$> orig →
  for_range n (MultiStep.body optimizer_step time kwargs) deltas w = Ok (deltas', w', tr) →
  MultiStep.variables w' = assign_add orig deltas'.
Proof using assoc.
  intros Happlies. revert deltas w tr.
  induction n as [|n IH]; intros deltas w tr Hvars Hshape.
  - cbn. unfold ret. by intros [= <- <- <-].
  - cbn [for_range].
    intros (ds1 & w1 & t1 & t2 & Hbody & Hrest & ->)%bind_ok_inv.
    unfold MultiStep.body in Hbody.
    apply bind_ok_inv in Hbody as (d & w2 & t3 & t4 & Hstep & Hret & ->).
    unfold ret in Hret. injection Hret as <- <- <-.
    unfold MultiStep.step in Hstep.
    destruct (optimizer_step time kwargs w) as [[d0 w0]|e] eqn:Hopt; [|done].
    injection Hstep as <- <- <-.
    apply Happlies in Hopt as [Hw0 Hd0].
    rewrite Hvars, shapes_assign_add in Hd0 by done.
    eapply IH; [| |exact Hrest].
    + rewrite Hw0, Hvars. apply assign_add_assoc.
      * by rewrite <- (length_fmap shape deltas), Hshape, length_fmap.
      * by rewrite <- (length_fmap shape d0), Hd0, length_fmap.
    + rewrite shapes_zip_with_tensor_add; [done|congruence].
Qed.
End Associative.

(** X4. Around an inner optimizer that has applied the deltas it returns
    (one per variable, of its shape), a step of the multi-step optimizer
    that returns leaves the variables at the original ones with the
    deltas of each inner step added in turn, and returns one delta per
    variable, of its shape. Where sums do not depend on their grouping,
    as in exact arithmetic, the variables are then the original ones plus
    the summed deltas it returns. *)
Theorem multi_step_applies_its_deltas self time kwargs fn_reference (w : world)
    deltas w' tr :
  MultiStep.applies_its_deltas optimizer_step time kwargs →
  MultiStep.tf_step optimizer_step self time kwargs fn_reference w = Ok (deltas, w', tr) →
  MultiStep.variables w'
  = foldl assign_add (MultiStep.variables w) (MultiStep.step_deltas tr)
  ∧ shape <$> deltas = shape <$> MultiStep.variables w
  ∧ ((∀ a b c : R, s_add (s_add a b) c = s_add a (s_add b c)) →
     MultiStep.variables w' = assign_add (MultiStep.variables w) deltas).
Proof.
  intros Happlies. rewrite tf_step_for_range.
  intros (r & w1 & t1 & t2 & Href & Hrest & ->)%bind_ok_inv.
  apply bind_ok_inv in Hrest as ([] & w2 & t3 & t4 & Hset & Hrest & ->).
  apply bind_ok_inv in Hrest as (d & w3 & t5 & t6 & Hstep & Hloop & ->).
  unfold MultiStep.call_reference in Href.
  destruct fn_reference as [f|]; [|done]. destruct (f _ _) as [r'|e]; [|done].
  injection Href as <- <- <-.
  unfold MultiStep.setitem in Hset. injection Hset as <- <-.
  unfold MultiStep.step in Hstep.
  destruct (optimizer_step time kwargs _) as [[d0 w0]|e] eqn:Hopt; [|done].
  injection Hstep as <- <- <-.
  apply Happlies in Hopt as [Hw0 Hd0]. cbn in Hw0, Hd0.
  split_and!.
  - rewrite (for_range_applies_in_turn _ _ _ _ _ _ _ _ Happlies Hloop), Hw0.
    unfold MultiStep.step_deltas. rewrite !omap_app. by rewrite foldl_app.
  - eapply for_range_shapes; [exact Happlies| |exact Hd0|exact Hloop].
    rewrite Hw0, shapes_assign_add; done.
  - intros assoc. by eapply (for_range_applies assoc).
Qed.
End MultiStepApplies.

(** ** The multi-step optimizer on its test doubles *)

Section MultiStepExamples.
Import Fixture.
Local Open Scope Qc_scope.

Lemma multi_step_raises_what_it_is_given_witness :
  MultiStep.tf_step failing_step (multi_step false) tt tt (Some constant_reference)
    stepped_world = Raise (Failure "step")
  ∧ ((Some constant_reference = None ∧ Failure "step" = TypeError)
     ∨ (∃ f, Some constant_reference = Some f
             ∧ f (MultiStep.arguments stepped_world) (MultiStep.variables stepped_world)
               = Raise (Failure "step"))
     ∨ (∃ w0, failing_step tt tt w0 = Raise (Failure "step"))).
Proof.
  match goal with |- ?A ∧ _ => assert (HA : A) by (vm_compute; reflexivity) end.
  split; [exact HA|].
  exact (multi_step_raises_what_it_is_given failing_step _ _ _ _ _ _ HA).
Defined.

Lemma multi_step_deltas_cut_to_shortest_witness :
  MultiStep.unroll_loop (multi_step true) = true
  ∧ ∃ deltas w' tr,
      MultiStep.tf_step uneven_step (multi_step true) tt tt (Some constant_reference)
        uneven_world = Ok (deltas, w', tr)
      ∧ (length <$> MultiStep.step_deltas tr = [2; 1; 1]%nat ∧ length deltas = 1%nat)
      ∧ Forall (λ d, (length deltas ≤ length d)%nat) (MultiStep.step_deltas tr)
      ∧ Exists (λ d, length d = length deltas) (MultiStep.step_deltas tr).
Proof.
  split; [reflexivity|].
  eexists _, _, _.
  match goal with |- ?A ∧ _ => assert (HA : A) by (vm_compute; reflexivity) end.
  split; [exact HA|]. split; [split; vm_compute; reflexivity|].
  exact (multi_step_deltas_cut_to_shortest uneven_step (multi_step true)
           _ _ _ _ _ _ _ eq_refl HA).
Defined.

Lemma second_step_sees_first_reference_witness :
  MultiStep.keeps_arguments constant_step tt tt
  ∧ ∃ deltas1 w1 tr1 deltas2 w2 tr2,
      MultiStep.tf_step constant_step (multi_step false) tt tt (Some constant_reference)
        stepped_world = Ok (deltas1, w1, tr1)
      ∧ MultiStep.tf_step constant_step (multi_step false) tt tt (Some constant_reference)
          w1 = Ok (deltas2, w2, tr2)
      ∧ ∃ r1 r2,
          constant_reference (MultiStep.arguments stepped_world)
            (MultiStep.variables stepped_world) = Ok r1
          ∧ constant_reference (<["reference" := r1]> (MultiStep.arguments stepped_world))
              (MultiStep.variables w1) = Ok r2
          ∧ MultiStep.references (tr1 ++ tr2) = [r1; r2]
          ∧ MultiStep.arguments w2
            = <["reference" := r2]> (MultiStep.arguments stepped_world).
Proof.
  assert (MultiStep.keeps_arguments constant_step tt tt) as Hkeep.
  { intros w deltas w'. unfold constant_step. by intros [= <- <-]. }
  split; [exact Hkeep|].
  eexists _, _, _, _, _, _.
  match goal with |- ?A ∧ _ => assert (HA : A) by (vm_compute; reflexivity) end.
  split; [exact HA|].
  match goal with |- ?B ∧ _ => assert (HB : B) by (vm_compute; reflexivity) end.
  split; [exact HB|].
  exact (second_step_sees_first_reference constant_step _ _ _ _ _ _ _ _ _ _ _
           Hkeep HA HB).
Defined.

Lemma multi_step_applies_its_deltas_witness :
  MultiStep.applies_its_deltas ones_step tt tt
  ∧ ∃ deltas w' tr,
      MultiStep.tf_step ones_step (multi_step false) tt tt (Some constant_reference)
        stepped_world = Ok (deltas, w', tr)
      ∧ MultiStep.variables w'
        = foldl assign_add (MultiStep.variables stepped_world) (MultiStep.step_deltas tr)
      ∧ shape <$> deltas = shape <$> MultiStep.variables stepped_world
      ∧ MultiStep.variables w' = assign_add (MultiStep.variables stepped_world) deltas.
Proof.
  assert (MultiStep.applies_its_deltas ones_step tt tt) as Happlies.
  { intros w deltas w'. unfold ones_step. intros [= <- <-]. split; [done|].
    rewrite <- list_fmap_compose. apply list_fmap_ext. intros i v _.
    unfold shape. cbn. by rewrite length_fmap. }
  split; [exact Happlies|].
  eexists _, _, _.
  match goal with |- ?A ∧ _ => assert (HA : A) by (vm_compute; reflexivity) end.
  split; [exact HA|].
  destruct (multi_step_applies_its_deltas ones_step _ _ _ _ _ _ _ _ Happlies HA)
    as (Hturn & Hshape & Hexact).
  split_and!; [exact Hturn|exact Hshape|].
  apply Hexact. intros a b c. cbn. ring.
Defined.
End MultiStepExamples.

(** ** More on the evolutionary optimizer *)

Section EvolutionaryMore.
Context {R : Type} `{Scalar R} {Val G : Type}.
Local Abbreviation eworld := (@Evolutionary.world R Val G).
Variable standard_normal : G → R * G.

Section OneLoss.
Variable fn_loss : gmap string Val → list (Tensor R) → Res R.
Local Abbreviation body := (Evolutionary.body standard_normal fn_loss).
Local Abbreviation first_sample := (Evolutionary.first_sample standard_normal fn_loss).
Local Abbreviation tf_step := (Evolutionary.tf_step standard_normal fn_loss).

Lemma body_raise self unperturbed_loss deltas_sum previous (w : eworld) e :
  shape <$> previous = shape <$> Evolutionary.variables w →
  body self unperturbed_loss (deltas_sum, previous) w = Raise e →
  ∃ vs, fn_loss (Evolutionary.arguments w) vs = Raise e
        ∧ shape <$> vs = shape <$> Evolutionary.variables w.
Proof.
  intros Hprev. unfold Evolutionary.body, bind, Evolutionary.sample_perturbations,
    Evolutionary.apply_step, Evolutionary.call_loss, ret.
  pose proof (draw_perturbations_shape standard_normal (Evolutionary.learning_rate self)
                (Evolutionary.variables w) (Evolutionary.generator w)) as Hshape.
  destruct (Evolutionary.draw_perturbations _ _ _ _) as [ps g]. cbn in Hshape |- *.
  destruct (fn_loss _ _) as [l|e'] eqn:Hloss; [done|].
  intros [= ->]. eexists. split; [exact Hloss|].
  apply shapes_assign_add. rewrite shapes_zip_with_tensor_sub; [done|congruence].
Qed.

Lemma for_range_body_raise_loss self unperturbed_loss k deltas_sum previous (w : eworld) e :
  shape <$> previous = shape <$> Evolutionary.variables w →
  for_range k (body self unperturbed_loss) (deltas_sum, previous) w = Raise e →
  ∃ vs, fn_loss (Evolutionary.arguments w) vs = Raise e
        ∧ shape <$> vs = shape <$> Evolutionary.variables w.
Proof.
  revert deltas_sum previous w. induction k as [|k IH]; intros deltas_sum previous w Hprev;
    [done|].
  cbn [for_range].
  intros [Hbody|([ds1 ps1] & w1 & t1 & Hbody & Hrest)]%bind_raise_inv.
  - by eapply body_raise.
  - apply body_inv in Hbody as (s & Hps & Hcons & _ & _ & Hvars & Hargs).
    pose proof (consecutive_shapes fn_loss _ _ _ _ _ eq_refl Hprev Hcons) as Hsh.
    apply Forall_cons in Hsh as [[Hd Hp] _].
    apply IH in Hrest as (vs & Hloss & Hvs).
    + exists vs. rewrite <- Hargs. split; [done|]. by rewrite Hvs, Hvars.
    + by rewrite Hvars, <- Hps, Hd, Hp.
Qed.

Lemma first_sample_raise self (w : eworld) e :
  first_sample self w = Raise e →
  ∃ vs, fn_loss (Evolutionary.arguments w) vs = Raise e
        ∧ shape <$> vs = shape <$> Evolutionary.variables w.
Proof.
  unfold Evolutionary.first_sample, bind, Evolutionary.sample_perturbations,
    Evolutionary.apply_step, Evolutionary.call_loss, ret.
  destruct (fn_loss _ _) as [l0|e'] eqn:Hloss0; [|intros [= ->]; by eexists].
  pose proof (draw_perturbations_shape standard_normal (Evolutionary.learning_rate self)
                (Evolutionary.variables w) (Evolutionary.generator w)) as Hshape.
  destruct (Evolutionary.draw_perturbations _ _ _ _) as [ps g]. cbn in Hshape |- *.
  destruct (fn_loss _ (assign_add _ _)) as [l|e'] eqn:Hloss; [done|].
  intros [= ->]. eexists. split; [exact Hloss|]. by apply shapes_assign_add.
Qed.

(** X5. An evolutionary step raises nothing of its own: an exception of a
    step was raised, as it is, by [fn_loss], called with the caller's
    arguments on variables of the shapes of the original ones. *)
Theorem evolutionary_raises_what_the_loss_raises self (w : eworld) e :
  tf_step self w = Raise e →
  ∃ vs, fn_loss (Evolutionary.arguments w) vs = Raise e
        ∧ shape <$> vs = shape <$> Evolutionary.variables w.
Proof.
  unfold Evolutionary.tf_step.
  intros [Hsamples|([ds ps] & w1 & t1 & _ & Hfinish)]%bind_raise_inv; [|done].
  rewrite samples_for_range in Hsamples.
  apply bind_raise_inv in Hsamples
    as [Hfirst|([[l0 ds0] ps0] & w0 & t0 & Hfirst & Hloop)].
  - by eapply first_sample_raise.
  - apply first_sample_inv in Hfirst as (s & _ & Hps & Hhist & _ & _ & Hvars & Hargs).
    pose proof (history_shapes fn_loss _ _ _ Hhist) as Hsh.
    apply Forall_cons in Hsh as [[Hd Hp] _].
    apply for_range_body_raise_loss in Hloop as (vs & Hloss & Hvs).
    + exists vs. rewrite <- Hargs. split; [done|]. by rewrite Hvs, Hvars.
    + by rewrite Hvars, <- Hps, Hd, Hp.
Qed.

Lemma body_draws self unperturbed_loss deltas_sum previous (w : eworld)
    deltas_sum' ps w' tr :
  body self unperturbed_loss (deltas_sum, previous) w = Ok ((deltas_sum', ps), w', tr) →
  Evolutionary.draw_perturbations standard_normal (Evolutionary.learning_rate self)
    (Evolutionary.variables w) (Evolutionary.generator w) = (ps, Evolutionary.generator w')
  ∧ Evolutionary.perturbation_sets tr = [ps].
Proof.
  unfold Evolutionary.body, bind, Evolutionary.sample_perturbations,
    Evolutionary.apply_step, Evolutionary.call_loss, ret.
  destruct (Evolutionary.draw_perturbations _ _ _ _) as [ps0 g]. cbn.
  destruct (fn_loss _ _) as [l|e']; [|done].
  by intros [= <- <- <- <-].
Qed.

Lemma first_sample_draws self (w : eworld) unperturbed_loss deltas_sum ps w' tr :
  first_sample self w = Ok ((unperturbed_loss, deltas_sum, ps), w', tr) →
  Evolutionary.draw_perturbations standard_normal (Evolutionary.learning_rate self)
    (Evolutionary.variables w) (Evolutionary.generator w) = (ps, Evolutionary.generator w')
  ∧ Evolutionary.perturbation_sets tr = [ps].
Proof.
  unfold Evolutionary.first_sample, bind, Evolutionary.sample_perturbations,
    Evolutionary.apply_step, Evolutionary.call_loss, ret.
  destruct (fn_loss _ _) as [l0|e']; [|done].
  destruct (Evolutionary.draw_perturbations _ _ _ _) as [ps0 g]. cbn.
  destruct (fn_loss _ _) as [l|e']; [|done].
  by intros [= <- <- <- <- <-].
Qed.

Lemma draw_perturbations_by_shape learning_rate (vs1 vs2 : list (Tensor R)) g :
  shape <$> vs1 = shape <$> vs2 →
  Evolutionary.draw_perturbations standard_normal learning_rate vs1 g
  = Evolutionary.draw_perturbations standard_normal learning_rate vs2 g.
Proof.
  revert vs2 g. induction vs1 as [|v vs1 IH]; intros [|v' vs2] g; try done.
  cbn. intros [= Hv Hvs]. rewrite Hv.
  destruct (Evolutionary.random_normal _ _ _) as [t g1]. by rewrite (IH _ _ Hvs).
Qed.
End OneLoss.

Section TwoLosses.
Variables fn_loss1 fn_loss2 : gmap string Val → list (Tensor R) → Res R.

Lemma for_range_body_same_draws self k l1 l2 ds1 ds2 prev1 prev2 (w1 w2 : eworld)
    ds1' ps1 w1' tr1 ds2' ps2 w2' tr2 :
  Evolutionary.generator w1 = Evolutionary.generator w2 →
  shape <$> Evolutionary.variables w1 = shape <$> Evolutionary.variables w2 →
  shape <$> prev1 = shape <$> Evolutionary.variables w1 →
  shape <$> prev2 = shape <$> Evolutionary.variables w2 →
  for_range k (Evolutionary.body standard_normal fn_loss1 self l1) (ds1, prev1) w1
    = Ok ((ds1', ps1), w1', tr1) →
  for_range k (Evolutionary.body standard_normal fn_loss2 self l2) (ds2, prev2) w2
    = Ok ((ds2', ps2), w2', tr2) →
  Evolutionary.perturbation_sets tr1 = Evolutionary.perturbation_sets tr2
  ∧ Evolutionary.generator w1' = Evolutionary.generator w2'.
Proof.
  revert ds1 ds2 prev1 prev2 w1 w2 tr1 tr2.
  induction k as [|k IH]; intros ds1 ds2 prev1 prev2 w1 w2 tr1 tr2 Hg Hvs Hp1 Hp2.
  - cbn. unfold ret. by intros [= <- <- <- <-] [= <- <- <- <-].
  - cbn [for_range].
    intros ([da pa] & wa & ta & ta' & Hbody1 & Hrest1 & ->)%bind_ok_inv
           ([db pb] & wb & tb & tb' & Hbody2 & Hrest2 & ->)%bind_ok_inv.
    pose proof (body_draws _ _ _ _ _ _ _ _ _ _ Hbody1) as [Hd1 Ht1].
    pose proof (body_draws _ _ _ _ _ _ _ _ _ _ Hbody2) as [Hd2 Ht2].
    rewrite (draw_perturbations_by_shape _ _ _ _ Hvs), Hg, Hd2 in Hd1.
    injection Hd1 as -> Hg'.
    apply body_inv in Hbody1 as (s1 & Hps1 & Hcons1 & _ & _ & Hvars1 & _).
    apply body_inv in Hbody2 as (s2 & Hps2 & Hcons2 & _ & _ & Hvars2 & _).
    pose proof (consecutive_shapes fn_loss1 _ _ _ _ _ eq_refl Hp1 Hcons1) as Hsh1.
    pose proof (consecutive_shapes fn_loss2 _ _ _ _ _ eq_refl Hp2 Hcons2) as Hsh2.
    apply Forall_cons in Hsh1 as [[Hda Hpa] _].
    apply Forall_cons in Hsh2 as [[Hdb Hpb] _].
    assert (shape <$> Evolutionary.variables wa = shape <$> Evolutionary.variables wb)
      as Hq0 by (by rewrite Hvars1, Hvars2, Hpa, Hpb).
    assert (shape <$> pa = shape <$> Evolutionary.variables wa)
      as Hq1 by (by rewrite Hvars1, <- Hps1, Hda, Hpa).
    assert (shape <$> pa = shape <$> Evolutionary.variables wb)
      as Hq2 by (by rewrite Hvars2, <- Hps2, Hdb, Hpb).
    destruct (IH _ _ _ _ _ _ _ _ (eq_sym Hg') Hq0 Hq1 Hq2 Hrest1 Hrest2) as [Htr Hgen].
    split; [|done].
    unfold Evolutionary.perturbation_sets in *.
    rewrite !omap_app. by rewrite Ht1, Ht2, Htr.
Qed.

(** X6. The draws do not depend on the loss: two steps of one optimizer
    from the same generator state, on variables of the same shapes, draw
    the same perturbations and leave the generator in the same state,
    whatever their losses, arguments and variables are. *)
Theorem draws_do_not_depend_on_the_loss self (w1 w2 : eworld)
    deltas1 w1' tr1 deltas2 w2' tr2 :
  Evolutionary.generator w1 = Evolutionary.generator w2 →
  shape <$> Evolutionary.variables w1 = shape <$> Evolutionary.variables w2 →
  Evolutionary.tf_step standard_normal fn_loss1 self w1 = Ok (deltas1, w1', tr1) →
  Evolutionary.tf_step standard_normal fn_loss2 self w2 = Ok (deltas2, w2', tr2) →
  Evolutionary.perturbation_sets tr1 = Evolutionary.perturbation_sets tr2
  ∧ Evolutionary.generator w1' = Evolutionary.generator w2'.
Proof.
  intros Hg Hvs. unfold Evolutionary.tf_step.
  intros ([dsa pa] & wa & ta & ta' & Hsamples1 & Hfinish1 & ->)%bind_ok_inv
         ([dsb pb] & wb & tb & tb' & Hsamples2 & Hfinish2 & ->)%bind_ok_inv.
  rewrite samples_for_range in Hsamples1, Hsamples2.
  apply bind_ok_inv in Hsamples1
    as ([[l1 ds1] ps1] & u1 & t1 & t1' & Hfirst1 & Hloop1 & ->).
  apply bind_ok_inv in Hsamples2
    as ([[l2 ds2] ps2] & u2 & t2 & t2' & Hfirst2 & Hloop2 & ->).
  pose proof (first_sample_draws _ _ _ _ _ _ _ _ Hfirst1) as [Hd1 Ht1].
  pose proof (first_sample_draws _ _ _ _ _ _ _ _ Hfirst2) as [Hd2 Ht2].
  rewrite (draw_perturbations_by_shape _ _ _ _ Hvs), Hg, Hd2 in Hd1.
  injection Hd1 as -> Hg'.
  apply first_sample_inv in Hfirst1 as (s1 & _ & Hps1 & Hhist1 & _ & _ & Hvars1 & _).
  apply first_sample_inv in Hfirst2 as (s2 & _ & Hps2 & Hhist2 & _ & _ & Hvars2 & _).
  pose proof (history_shapes fn_loss1 _ _ _ Hhist1) as Hsh1.
  pose proof (history_shapes fn_loss2 _ _ _ Hhist2) as Hsh2.
  apply Forall_cons in Hsh1 as [[Hda Hpa] _].
  apply Forall_cons in Hsh2 as [[Hdb Hpb] _].
  assert (shape <$> Evolutionary.variables u1 = shape <$> Evolutionary.variables u2)
    as Hq0 by (by rewrite Hvars1, Hvars2, Hpa, Hpb, Hvs).
  assert (shape <$> ps1 = shape <$> Evolutionary.variables u1)
    as Hq1 by (by rewrite Hvars1, <- Hps1, Hda, Hpa).
  assert (shape <$> ps1 = shape <$> Evolutionary.variables u2)
    as Hq2 by (by rewrite Hvars2, <- Hps2, Hdb, Hpb).
  destruct (for_range_body_same_draws _ _ _ _ _ _ _ _ _ _ _ _ _ _ _ _ _ _
              (eq_sym Hg') Hq0 Hq1 Hq2 Hloop1 Hloop2) as [Htr Hgen].
  unfold Evolutionary.finish, bind, Evolutionary.apply_step, ret in Hfinish1, Hfinish2.
  injection Hfinish1 as <- <- <-. injection Hfinish2 as <- <- <-.
  split; [|done].
  unfold Evolutionary.perturbation_sets in *.
  rewrite !omap_app. by rewrite Ht1, Ht2, Htr.
Qed.
End TwoLosses.
End EvolutionaryMore.

(** ** The evolutionary optimizer on its test doubles *)

Section EvolutionaryExamples.
Import Fixture.
Local Open Scope Qc_scope.

Lemma evolutionary_raises_what_the_loss_raises_witness :
  Evolutionary.tf_step playback fragile_loss (evolutionary false) sampled_world
  = Raise (Failure "loss")
  ∧ ∃ vs, fragile_loss (Evolutionary.arguments sampled_world) vs = Raise (Failure "loss")
          ∧ shape <$> vs = shape <$> Evolutionary.variables sampled_world.
Proof.
  match goal with |- ?A ∧ _ => assert (HA : A) by (vm_compute; reflexivity) end.
  split; [exact HA|].
  exact (evolutionary_raises_what_the_loss_raises playback fragile_loss _ _ _ HA).
Defined.

Lemma draws_do_not_depend_on_the_loss_witness :
  Evolutionary.generator sampled_world = Evolutionary.generator shifted_world
  ∧ shape <$> Evolutionary.variables sampled_world
    = shape <$> Evolutionary.variables shifted_world
  ∧ ∃ deltas1 w1' tr1 deltas2 w2' tr2,
      Evolutionary.tf_step playback square_loss (evolutionary false) sampled_world
      = Ok (deltas1, w1', tr1)
      ∧ Evolutionary.tf_step playback flat_loss (evolutionary false) shifted_world
        = Ok (deltas2, w2', tr2)
      ∧ deltas1 ≠ deltas2
      ∧ Evolutionary.perturbation_sets tr1 = Evolutionary.perturbation_sets tr2
      ∧ Evolutionary.generator w1' = Evolutionary.generator w2'.
Proof.
  split; [reflexivity|]. split; [reflexivity|].
  eexists _, _, _, _, _, _.
  match goal with |- ?A ∧ ?B ∧ _ =>
    assert (HA : A) by (vm_compute; reflexivity);
    assert (HB : B) by (vm_compute; reflexivity)
  end.
  split; [exact HA|]. split; [exact HB|].
  split; [intros E; vm_compute in E; discriminate E|].
  exact (draws_do_not_depend_on_the_loss playback square_loss flat_loss
           (evolutionary false) sampled_world shifted_world _ _ _ _ _ _
           eq_refl eq_refl HA HB).
Defined.
End EvolutionaryExamples.
